(** * Helena: argparser, its owned array, and hx_strcat

    A shallow embedding of the C sources

      - lib/argparser/src/owned_array.c   (OwnedArray: init, append, copy)
      - argparser.c                       (describe, execute_default, subcommand)
      - hx_string.c                       (hx_strcat)

    C is modelled with the semantics the standard gives it: a call either
    returns a value, terminates the process through exit(), or has undefined
    behaviour.  Heap blocks are lists of cells whose length is the number of
    bytes the allocator was asked for; an access outside a block, a write
    through a null pointer, a read of an indeterminate value and the use of a
    freed block are undefined.  [int] is 32 bits wide and [size_t] 64 (LP64). *)

From Stdlib Require Import ZArith Ascii String Lia.
From Stdlib.Strings Require Import Byte.
From stdpp Require Import base decidable option list numbers strings.

Open Scope Z_scope.

(** ** Outcomes of a C call *)

Inductive undefined_behaviour :=
| NullPointer          (* access through a null pointer *)
| OutOfBounds          (* access outside the block a pointer was derived from *)
| IndeterminateValue   (* use of bytes that were never written, or torn *)
| SignedOverflow       (* int arithmetic leaving [INT_MIN, INT_MAX] *)
| UseAfterFree.        (* a freed block handed to code that reads it *)

Inductive outcome (A : Type) :=
| Ok (a : A)                             (* the call returns *)
| Exit (code : Z)                        (* exit(code) was called *)
| Undefined (ub : undefined_behaviour)   (* the call has undefined behaviour *)
| OutOfFuel.                             (* a loop of the model ran out of fuel *)

Arguments Ok {A} a.
Arguments Exit {A} code.
Arguments Undefined {A} ub.
Arguments OutOfFuel {A}.

#[global] Instance outcome_ret : MRet outcome := fun A a => Ok a.

#[global] Instance outcome_bind : MBind outcome := fun A B f m =>
  match m with
  | Ok a => f a
  | Exit code => Exit code
  | Undefined ub => Undefined ub
  | OutOfFuel => OutOfFuel
  end.

(** The exit status a call terminated the process with, if it did. *)
Definition exit_code {A} (o : outcome A) : option Z :=
  match o with
  | Exit code => Some code
  | _ => None
  end.

(** ** Integers *)

Definition INT_MIN : Z := - 2 ^ 31.
Definition INT_MAX : Z := 2 ^ 31 - 1.

(** The value of an [int] expression whose mathematical result is [z]. *)
Definition int (z : Z) : outcome Z :=
  if (INT_MIN <=? z) && (z <=? INT_MAX) then Ok z else Undefined SignedOverflow.

(** Conversion to [size_t]: reduction modulo 2^64. *)
Definition size_t (z : Z) : Z := z mod 2 ^ 64.

(** Conversion of a [size_t] to [int] (two's complement wrap-around). *)
Definition to_int (z : Z) : Z := (z + 2 ^ 31) mod 2 ^ 32 - 2 ^ 31.

(** ** Strings and the types of argparser.h *)

(** A [char *]: null, or the address of a string together with the characters
    before its terminator.  [==] and [!=] on pointers compare the addresses. *)
Record c_string := { address : Z; chars : string }.

Definition char_ptr := option c_string.

Definition ptr_eqb (p q : char_ptr) : bool :=
  bool_decide ((address <$> p) = (address <$> q)).

Record Option := {
  long_name : char_ptr;
  short_name : ascii;
  documentation : char_ptr
}.

Record Subcommand := {
  subcommand_name : char_ptr;
  subcommand_documentation : char_ptr
}.

Record Description := {
  name : char_ptr;
  overview : char_ptr;
  option_count : Z;
  options : list Option;
  subcommand_count : Z;
  subcommands : list Subcommand
}.

Inductive DefaultExecutionStatus := EXECUTED | UNDESCRIBED | NONE.

#[global] Instance c_string_eq_dec : EqDecision c_string.
Proof. solve_decision. Defined.

#[global] Instance Option_eq_dec : EqDecision Option.
Proof. solve_decision. Defined.

#[global] Instance Subcommand_eq_dec : EqDecision Subcommand.
Proof. solve_decision. Defined.

#[global] Instance Description_eq_dec : EqDecision Description.
Proof. solve_decision. Defined.

(** sizeof(Description) under LP64: two pointers, an int padded to 8, a
    pointer, an int padded to 8, a pointer. *)
Definition sizeof_Description : Z := 48.

(** ** Memory *)

(** One byte of a heap block: never written, a plain byte, or the [n]-th byte
    of the object representation of a [Description] (the pointers in it have no
    numeric value in the model). *)
Inductive memval :=
| Undef
| Raw (b : byte)
| Fragment (d : Description) (n : nat).

#[global] Instance byte_eq_dec : EqDecision byte := Byte.byte_eq_dec.

#[global] Instance memval_eq_dec : EqDecision memval.
Proof. solve_decision. Defined.

Section Blocks.
Context {A : Type}.

(** [size] cells of [block] starting at [offset]. *)
Definition load (block : list A) (offset size : Z) : outcome (list A) :=
  if (0 <=? offset) && (0 <=? size) && (offset + size <=? Z.of_nat (length block))
  then Ok (take (Z.to_nat size) (drop (Z.to_nat offset) block))
  else Undefined OutOfBounds.

(** [block] with [data] written at [offset]. *)
Definition store (block : list A) (offset : Z) (data : list A) : outcome (list A) :=
  if (0 <=? offset) && (offset + Z.of_nat (length data) <=? Z.of_nat (length block))
  then Ok (take (Z.to_nat offset) block ++ data
           ++ drop (Z.to_nat offset + length data) block)
  else Undefined OutOfBounds.
End Blocks.

Definition block := list memval.

(** malloc(size): a fresh block of [size] indeterminate bytes. *)
Definition malloc (size : Z) : block := replicate (Z.to_nat size) Undef.

(** realloc(pointer, size): null when the request cannot be met (a negative
    [int] converts to a size beyond any allocation); otherwise a block of
    exactly [size] bytes that keeps the old contents up to the smaller of the
    two sizes.  realloc(NULL, size) is malloc(size). *)
Definition realloc (pointer : option block) (size : Z) : option block :=
  if size <? 0 then None
  else Some (resize (Z.to_nat size) Undef (default [] pointer)).

(** The object representation of a [Description], and its reading back. *)
Definition encode_Description (d : Description) : block :=
  Fragment d <$> seq 0 (Z.to_nat sizeof_Description).

Definition decode_Description (b : block) : option Description :=
  match b with
  | Fragment d _ :: _ => if decide (b = encode_Description d) then Some d else None
  | _ => None
  end.

(** The four bytes of a little-endian [int] below 256. *)
Definition encode_small_int (b : byte) : block := [Raw b; Raw x00; Raw x00; Raw x00].

(** ** owned_array.c *)

Record OwnedArray := {
  head : option block;     (* void *head; None is NULL *)
  capacity : Z;
  element_size : Z;
  count : Z
}.

Definition grow_on_overflow (array : OwnedArray) (new_count : Z) : outcome OwnedArray :=
  if new_count <=? capacity array then Ok array
  else
    new_capacity ← (if capacity array =? 0 then Ok 4 else int (capacity array * 2));
    Ok {| head := head array; capacity := new_capacity;
          element_size := element_size array; count := count array |}.

(** [array] is the pointer handed in: null, or the (possibly uninitialized)
    record it points to. *)
Definition owned_array_init (array : option OwnedArray) (element_size : Z)
  : option OwnedArray :=
  match array with
  | None => None
  | Some _ =>
      Some {| head := None; capacity := 0; element_size := element_size; count := 0 |}
  end.

(** [element] is the block the caller's pointer addresses; free(element) leaves
    nothing to model.  The block is reallocated to [new_count] bytes and the
    element is moved to byte offset [new_count * element_size] of it. *)
Definition owned_array_append (array : OwnedArray) (element : block)
  : outcome OwnedArray :=
  new_count ← int (count array + 1);
  array ← grow_on_overflow array new_count;
  let head := realloc (head array) new_count in
  offset ← int (new_count * element_size array);
  moved ← load element 0 (element_size array);
  match head with
  | None => Undefined NullPointer
  | Some cells =>
      cells ← store cells offset moved;
      Ok {| head := Some cells; capacity := capacity array;
            element_size := element_size array; count := new_count |}
  end.

(** The range test of owned_array_copy, with the short-circuit evaluation of
    [||]: [count - 1] is only computed when the first two tests fail. *)
Definition is_out_of_range (array : OwnedArray) (index : Z) : outcome bool :=
  if count array =? 0 then Ok true
  else if index <? 0 then Ok true
  else
    last ← int (count array - 1);
    Ok (last <? index).

(** [head] is a [void *], so [&array->head[index]] is the GNU extension that
    steps a void pointer by single bytes: the copy starts at byte [index].
    The result is the destination block after the call. *)
Definition owned_array_copy (array : OwnedArray) (destination : block) (index : Z)
  : outcome block :=
  out_of_range ← is_out_of_range array index;
  if out_of_range : bool then Ok destination
  else
    match head array with
    | None => Undefined NullPointer
    | Some cells =>
        copied ← load cells index (element_size array);
        store destination 0 copied
    end.

(** ** C strings in character buffers *)

Definition NUL : ascii := Ascii.zero.

(** strlen: the index of the first terminator; reading on past the end of the
    buffer is undefined. *)
Definition strlen (buffer : list ascii) : outcome Z :=
  match list_find (λ c, c = NUL) buffer with
  | Some (i, _) => Ok (Z.of_nat i)
  | None => Undefined OutOfBounds
  end.

(** The number of characters before the first terminator among the first [n]
    cells, or [n] when there is none. *)
Definition strnlen (buffer : list ascii) (n : Z) : outcome Z :=
  let scanned := take (Z.to_nat (Z.min n (Z.of_nat (length buffer)))) buffer in
  match list_find (λ c, c = NUL) scanned with
  | Some (i, _) => Ok (Z.of_nat i)
  | None => if n <=? Z.of_nat (length buffer) then Ok (Z.max 0 n)
            else Undefined OutOfBounds
  end.

(** strcpy(&destination[offset], source) *)
Definition strcpy_at (destination : list ascii) (offset : Z) (source : list ascii)
  : outcome (list ascii) :=
  source_length ← strlen source;
  store destination offset (take (Z.to_nat source_length) source ++ [NUL]).

(** strcat(destination, source) *)
Definition strcat (destination source : list ascii) : outcome (list ascii) :=
  destination_length ← strlen destination;
  strcpy_at destination destination_length source.

(** strncat(destination, source, n): at most [n] characters of [source], then
    a terminator. *)
Definition strncat (destination source : list ascii) (n : Z) : outcome (list ascii) :=
  destination_length ← strlen destination;
  appended ← strnlen source n;
  store destination destination_length (take (Z.to_nat appended) source ++ [NUL]).

(** strlcat(destination, source, size) of the BSDs: the returned length is the
    one the concatenation would have without truncation. *)
Definition strlcat (destination source : list ascii) (size : Z)
  : outcome (Z * list ascii) :=
  destination_length ← strnlen destination size;
  source_length ← strlen source;
  if destination_length =? size
  then Ok (size_t (size + source_length), destination)
  else
    let room := size - destination_length - 1 in
    destination ← store destination destination_length
                    (take (Z.to_nat (Z.min source_length room)) source ++ [NUL]);
    Ok (size_t (destination_length + source_length), destination).

(** A buffer of [size] bytes holding [text], its terminator, and then
    terminators up to the end. *)
Definition buffer_of (text : string) (size : nat) : list ascii :=
  resize size NUL (list_ascii_of_string text ++ [NUL]).

(** ** hx_string.c *)

Inductive ConcatenationStrategy := FILL | TRUNCATE | SEQUENTIAL.

#[global] Instance ConcatenationStrategy_eq_dec : EqDecision ConcatenationStrategy.
Proof. solve_decision. Defined.

Section HxString.
(** The value of the errno.h constant (36 on Linux, 63 on the BSDs and
    macOS), and whether the target takes the strlcat branch of the [#if]. *)
Variable ENAMETOOLONG : Z.
Variable has_strlcat : bool.

(** Returns the [size_t] result together with the destination buffer after
    the call.  The diagnostic written to stderr before exit() is left out. *)
Definition hx_strcat (destination : list ascii) (destination_size : Z)
    (source : list ascii) (strategy : ConcatenationStrategy)
  : outcome (Z * list ascii) :=
  source_length ← strlen source;
  if source_length =? 0 then Ok (0, destination)
  else
    let source_size := size_t (source_length + 1) in
    does_not_fit ←
      (if bool_decide (strategy ≠ TRUNCATE) then
         destination_length ← strlen destination;
         Ok (destination_size <? size_t (destination_length + source_size))
       else Ok false);
    if does_not_fit : bool then Exit ENAMETOOLONG
    else if bool_decide (strategy = SEQUENTIAL) then
      destination ← strncat destination source destination_size;
      Ok (0, destination)
    else if has_strlcat then strlcat destination source destination_size
    else
      destination_length ← strlen destination;
      let concatenation_index := to_int (destination_length + 1) in
      destination ← strcpy_at destination concatenation_index source;
      Ok (size_t (destination_length + source_length + 1), destination).
End HxString.

(** ** argparser.c *)

(** The process-wide state: the [descriptions] global (None is NULL) and what
    has been written to standard output. *)
Record process := {
  descriptions : option OwnedArray;
  stdout : string
}.

Definition initial_process : process := {| descriptions := None; stdout := "" |}.

Definition default_option_count : Z := 1.

Definition default_options : list Option := [
  {| long_name := Some {| address := 2048; chars := "help" |};
     short_name := "h";
     documentation :=
       Some {| address := 2053;
               chars := "Provide assistance on how to use the program." |} |}
].

Definition description_init (description : option Description)
    (name overview : char_ptr) (option_count : Z) (options : list Option)
    (subcommand_count : Z) (subcommands : list Subcommand) : option Description :=
  match description with
  | None => None
  | Some _ =>
      Some {| name := name; overview := overview;
              option_count := option_count; options := options;
              subcommand_count := subcommand_count; subcommands := subcommands |}
  end.

(** [struct option] of getopt.h. *)
Record gnu_option := {
  gnu_name : char_ptr;
  has_arg : Z;
  flag : option Z;
  val : Z
}.

Definition no_argument : Z := 0.

Definition option_to_gnu (option : Option) : gnu_option :=
  {| gnu_name := long_name option;
     has_arg := no_argument;
     flag := None;
     val := Z.of_nat (nat_of_ascii (short_name option)) |}.

Definition newline : string := String (ascii_of_nat 10) EmptyString.

(** printf with a null argument for [%s] reads through a null pointer. *)
Definition help (p : process) (description : Description) : outcome process :=
  match overview description, name description with
  | Some overview, Some name =>
      Ok {| descriptions := descriptions p;
            stdout := stdout p +:+ "OVERVIEW: " +:+ chars overview +:+ newline
                      +:+ "USAGE: " +:+ chars name |}
  | _, _ => Undefined NullPointer
  end.

Definition run_default_for_option_at_index (p : process)
    (description : Description) (option_index : Z) : outcome process :=
  if option_index =? 0 then help p description else Ok p.

(** The [for] loop of argparser_getopt.  [gnu_options] is the malloc'ed array
    ([None] marks a slot not yet written) and [optstring] the [char *] of that
    name, which starts out null.  The source of both strcpy and strcat is
    [&argparser_option.short_name], a pointer to one [char]. *)
Fixpoint argparser_getopt_loop (remaining : nat) (index : Z) (options : list Option)
    (gnu_options : list (option gnu_option)) (optstring : option (list ascii))
  : outcome (list (option gnu_option) * option (list ascii)) :=
  match remaining with
  | O => Ok (gnu_options, optstring)
  | S remaining =>
      match options !! Z.to_nat index with
      | None => Undefined OutOfBounds
      | Some argparser_option =>
          gnu_options ← store gnu_options index [Some (option_to_gnu argparser_option)];
          optstring ←
            match optstring with
            | None =>
                (* strcpy(optstring, ...) with optstring == NULL *)
                Undefined NullPointer
            | Some buffer => strcat buffer [short_name argparser_option]
            end;
          argparser_getopt_loop remaining (index + 1) options gnu_options
            (Some optstring)
      end
  end.

(** After the loop the array is freed and then passed to getopt_long as its
    table of long options. *)
Definition argparser_getopt (argc : Z) (argv : list char_ptr) (option_count : Z)
    (options : list Option) : outcome Z :=
  '(gnu_options, optstring) ←
    argparser_getopt_loop (Z.to_nat option_count) 0 options
      (replicate (Z.to_nat option_count) None) None;
  Undefined UseAfterFree.

(** The [for] loop of trim_start over the characters of the string; [buffer]
    is null until the first character that is not a space. *)
Fixpoint trim_start_loop (text : string) (buffer : option string) : option string :=
  match text with
  | EmptyString => buffer
  | String character rest =>
      match buffer with
      | None =>
          if Ascii.eqb character " " then trim_start_loop rest None
          else trim_start_loop rest (Some (String character EmptyString))
      | Some characters =>
          trim_start_loop rest (Some (characters +:+ String character EmptyString))
      end
  end.

(** The string after trim_start: untouched when [buffer] is still null. *)
Definition trim_start (text : string) : string :=
  match trim_start_loop text None with
  | None => text
  | Some buffer => buffer
  end.

(** strchr, as the offset of the first occurrence. *)
Fixpoint strchr (text : string) (character : ascii) : option Z :=
  match text with
  | EmptyString => None
  | String c rest =>
      if Ascii.eqb c character then Some 0
      else Z.succ <$> strchr rest character
  end.

Definition first_index (text : string) (character : ascii) : Z :=
  match strchr text character with
  | None => -1
  | Some offset => offset
  end.

Definition describe (p : process) (name overview : char_ptr) (option_count : Z)
    (options : list Option) (subcommand_count : Z) (subcommands : list Subcommand)
  : outcome process :=
  let uninitialized :=
    {| name := None; overview := None; option_count := 0; options := [];
       subcommand_count := 0; subcommands := [] |} in
  match description_init (Some uninitialized) name overview option_count options
          subcommand_count subcommands with
  | None => Undefined NullPointer
  | Some description =>
      let array :=
        match descriptions p with
        | None =>
            owned_array_init
              (Some {| head := None; capacity := 0; element_size := 0; count := 0 |})
              sizeof_Description
        | Some array => Some array
        end in
      match array with
      | None => Undefined NullPointer
      | Some array =>
          array ← owned_array_append array (encode_Description description);
          Ok {| descriptions := Some array; stdout := stdout p |}
      end
  end.

(** The inner [for] loop of execute_default over the descriptions: every
    iteration copies one element into a fresh block and compares its [name]
    pointer with [program_name]; a match is kept and the loop goes on. *)
Fixpoint find_description (remaining : nat) (descriptions : OwnedArray)
    (program_name : char_ptr) (description_index : Z)
    (the_description : option Description) : outcome (option Description) :=
  match remaining with
  | O => Ok the_description
  | S remaining =>
      a_description ←
        owned_array_copy descriptions (malloc sizeof_Description) description_index;
      match decode_Description a_description with
      | None => Undefined IndeterminateValue
      | Some a_description =>
          find_description remaining descriptions program_name (description_index + 1)
            (if ptr_eqb program_name (name a_description)
             then Some a_description else the_description)
      end
  end.

(** The [for] loop over the default options for one [flag] the scanner gave:
    [None] when the loop ends without a [return]. *)
Fixpoint default_options_loop (remaining : nat) (option_index : Z) (p : process)
    (argv : list char_ptr) (flag : Z)
  : outcome (option (DefaultExecutionStatus * process)) :=
  match remaining with
  | O => Ok None
  | S remaining =>
      match default_options !! Z.to_nat option_index with
      | None => Undefined OutOfBounds
      | Some argparser_option =>
          if negb (flag =? Z.of_nat (nat_of_ascii (short_name argparser_option)))
          then default_options_loop remaining (option_index + 1) p argv flag
          else
            match descriptions p with
            | None => Ok (Some (UNDESCRIBED, p))
            | Some array =>
                match argv !! 0%nat with
                | None => Undefined OutOfBounds
                | Some program_name =>
                    the_description ←
                      find_description (Z.to_nat (count array)) array program_name 0 None;
                    match the_description with
                    | None => Ok (Some (UNDESCRIBED, p))
                    | Some the_description =>
                        p ← run_default_for_option_at_index p the_description
                              option_index;
                        Ok (Some (EXECUTED, p))
                    end
                end
            end
      end
  end.

(** The [while] loop of execute_default over a scanner: [scanner n] is the
    outcome of the [n]-th call that fetches a flag. *)
Fixpoint execute_default_with (scanner : nat → outcome Z) (fuel calls : nat)
    (p : process) (argv : list char_ptr)
  : outcome (DefaultExecutionStatus * process) :=
  match fuel with
  | O => OutOfFuel
  | S fuel =>
      flag ← scanner calls;
      if flag =? -1 then Ok (NONE, p)
      else
        returned ← default_options_loop (Z.to_nat default_option_count) 0 p argv flag;
        match returned with
        | Some result => Ok result
        | None => execute_default_with scanner fuel (S calls) p argv
        end
  end.

(** execute_default: the scanner is argparser_getopt over the default options.
    [fuel] bounds the number of iterations of the [while] loop. *)
Definition execute_default (fuel : nat) (p : process) (argc : Z) (argv : list char_ptr)
  : outcome (DefaultExecutionStatus * process) :=
  execute_default_with
    (λ _, argparser_getopt argc argv default_option_count default_options)
    fuel 0 p argv.

(** The [for] loop of subcommand from [index] on; [remaining] is [argc - index].
    The trim happens in place, so the returned pointer has the address of the
    argument and the trimmed characters. *)
Fixpoint subcommand_loop (remaining : nat) (argv : list char_ptr)
    (index last_option_index : Z) : outcome char_ptr :=
  match remaining with
  | O => Ok None
  | S remaining =>
      match argv !! Z.to_nat index with
      | None => Undefined OutOfBounds
      | Some None => subcommand_loop remaining argv (index + 1) last_option_index
      | Some (Some argument) =>
          let argument :=
            {| address := address argument; chars := trim_start (chars argument) |} in
          if Z.of_nat (String.length (chars argument)) =? 0
          then subcommand_loop remaining argv (index + 1) last_option_index
          else if first_index (chars argument) "-" =? 0
          then subcommand_loop remaining argv (index + 1) index
          else if (0 <=? last_option_index) && (index =? last_option_index + 1)
          then subcommand_loop remaining argv (index + 1) (-1)
          else Ok (Some argument)
      end
  end.

Definition subcommand (argc : Z) (argv : list char_ptr) : outcome char_ptr :=
  if argc =? 1 then Ok None
  else subcommand_loop (Z.to_nat (argc - 1)) argv 1 (-1).

(** An argument vector as the system lays it out: the strings one after the
    other from [base] on, each followed by its terminator. *)
Fixpoint argv_at (base : Z) (arguments : list string) : list char_ptr :=
  match arguments with
  | [] => []
  | argument :: arguments =>
      Some {| address := base; chars := argument |}
      :: argv_at (base + Z.of_nat (String.length argument) + 1) arguments
  end.

(** The text a [char *] result points to. *)
Definition text_of (pointer : outcome char_ptr) : outcome (option string) :=
  match pointer with
  | Ok (Some pointee) => Ok (Some (chars pointee))
  | Ok None => Ok None
  | Exit code => Exit code
  | Undefined ub => Undefined ub
  | OutOfFuel => OutOfFuel
  end.

(** ** The subcommand of a command line, in the words of the specification

    "The first argv token at index >= 1 that, after trimming leading space
    characters, is non-empty, is not an option (its first character is not
    '-'), and does not immediately follow an option token."  These definitions
    follow that sentence, not argparser.c; they are what [subcommand] is
    compared with. *)

Fixpoint trim_leading_spaces (text : string) : string :=
  match text with
  | EmptyString => EmptyString
  | String character rest =>
      if Ascii.eqb character " " then trim_leading_spaces rest else text
  end.

Definition is_option_token (token : string) : bool :=
  match trim_leading_spaces token with
  | EmptyString => false
  | String character _ => Ascii.eqb character "-"
  end.

Fixpoint first_subcommand_after (previous_is_option : bool) (tokens : list string)
  : option string :=
  match tokens with
  | [] => None
  | token :: tokens =>
      let trimmed := trim_leading_spaces token in
      if negb (String.eqb trimmed "") && negb (is_option_token token)
         && negb previous_is_option
      then Some trimmed
      else first_subcommand_after (is_option_token token) tokens
  end.

Definition subcommand_of_claim (argv : list string) : option string :=
  first_subcommand_after false (tail argv).

(** A token of spaces only: trimming leaves nothing of it. *)
Definition blank (token : string) : Prop :=
  token ≠ EmptyString ∧ trim_leading_spaces token = EmptyString.

(** ** Stores and command lines the statements below are about *)

(** A call has undefined behaviour. *)
Definition undefined {A} (o : outcome A) : Prop := ∃ ub, o = Undefined ub.

(** What owned_array_init(array, sizeof(int)) leaves in [*array]. *)
Definition int_array : OwnedArray :=
  {| head := None; capacity := 0; element_size := 4; count := 0 |}.

(** A two-element store of [int]s (7 and 9) laid out the way the test of
    owned_array.c reads it back, [((int * ) array->head)[i]]. *)
Definition two_ints : OwnedArray :=
  {| head := Some (encode_small_int x07 ++ encode_small_int x09);
     capacity := 4; element_size := 4; count := 2 |}.

(** A store that holds the one description [d] at its start. *)
Definition single_description (d : Description) : OwnedArray :=
  {| head := Some (encode_Description d); capacity := 4;
     element_size := sizeof_Description; count := 1 |}.

Definition demo_name : c_string := {| address := 4096; chars := "demo" |}.
Definition demo_overview : c_string := {| address := 4101; chars := "A demo." |}.
Definition other_name : c_string := {| address := 4109; chars := "other" |}.

Definition demo_description : Description :=
  {| name := Some demo_name; overview := Some demo_overview;
     option_count := 0; options := []; subcommand_count := 0; subcommands := [] |}.

(** ** lexer.c *)

Record Token := {
  column : Z;
  row : Z;
  text : char_ptr
}.

Definition init_token (token : option Token) (column row : Z) (text : char_ptr)
  : option Token :=
  match token with
  | None => None
  | Some _ => Some {| column := column; row := row; text := text |}
  end.

(** The [int] a [char] is promoted to when it is passed to a function of
    ctype.h; [char] is signed, as the x86-64 ABI has it. *)
Definition char_to_int (character : ascii) : Z :=
  let code := Z.of_nat (nat_of_ascii character) in
  if code <? 128 then code else code - 256.

Definition EOF : Z := -1.

(** A classification function of ctype.h in the "C" locale (the program never
    calls setlocale): its argument has to be EOF or the value of an
    [unsigned char]. *)
Definition ctype (class : Z → bool) (c : Z) : outcome bool :=
  if c =? EOF then Ok false
  else if (0 <=? c) && (c <=? 255) then Ok (class c)
  else Undefined OutOfBounds.

Definition is_upper (c : Z) : bool := (65 <=? c) && (c <=? 90).
Definition is_lower (c : Z) : bool := (97 <=? c) && (c <=? 122).
Definition is_digit (c : Z) : bool := (48 <=? c) && (c <=? 57).

Definition isalpha (c : Z) : outcome bool :=
  ctype (λ c, is_upper c || is_lower c) c.

Definition isalnum (c : Z) : outcome bool :=
  ctype (λ c, is_upper c || is_lower c || is_digit c) c.

(** The [for] loop of is_id over the characters from [index] on.  The test is
    [index == 0 && isalpha(character) || isalnum(character)]: [&&] binds
    tighter than [||], and isalnum is only called when the left operand is
    false. *)
Fixpoint is_id_loop (characters : string) (index : Z) : outcome bool :=
  match characters with
  | EmptyString => Ok true
  | String character rest =>
      goes_on ←
        (if index =? 0 then
           alphabetic ← isalpha (char_to_int character);
           if alphabetic : bool then Ok true else isalnum (char_to_int character)
         else isalnum (char_to_int character));
      if goes_on : bool then
        index ← int (index + 1);
        is_id_loop rest index
      else Ok false
  end.

Definition is_id (token : option Token) : outcome bool :=
  match token with
  | None => Undefined NullPointer
  | Some token =>
      match text token with
      | None => Undefined NullPointer
      | Some text => is_id_loop (chars text) 0
      end
  end.

(** A letter or digit of ASCII. *)
Definition is_ascii_alnum (character : ascii) : bool :=
  let code := Z.of_nat (nat_of_ascii character) in
  is_upper code || is_lower code || is_digit code.

(** A character of ASCII: its code is below 128. *)
Definition is_ascii (character : ascii) : bool :=
  Z.of_nat (nat_of_ascii character) <? 128.

(** ** Vocabulary of the further properties *)

(** The characters of a buffer before its first terminator, when it has one. *)
Definition c_string_of (buffer : list ascii) : option (list ascii) :=
  match strlen buffer with
  | Ok n => Some (take (Z.to_nat n) buffer)
  | _ => None
  end.

(** An entry of argv that subcommand takes for an option: not null, with
    characters left after trim_start, the first of them a dash. *)
Definition is_option_argument (argument : char_ptr) : bool :=
  match argument with
  | None => false
  | Some argument =>
      let trimmed := trim_start (chars argument) in
      negb (Z.of_nat (String.length trimmed) =? 0) && (first_index trimmed "-" =? 0)
  end.

(** [n] spaces. *)
Definition spaces (n : nat) : string := string_of_list_ascii (replicate n " "%char).

(** * Properties *)

(** ** The outcome monad, integers and blocks *)

Lemma bind_Ok {A B} (a : A) (f : A → outcome B) : (Ok a ≫= f) = f a.
Proof. reflexivity. Qed.


Lemma exit_code_bind {A B} (m : outcome A) (f : A → outcome B) :
  exit_code m = None → (∀ a, exit_code (f a) = None) → exit_code (m ≫= f) = None.
Proof. destruct m; simpl; auto; discriminate. Qed.

Lemma int_in_range z : INT_MIN ≤ z ≤ INT_MAX → int z = Ok z.
Proof.
  intros [Hlo Hhi]. unfold int.
  destruct (Z.leb_spec INT_MIN z); [|lia].
  destruct (Z.leb_spec z INT_MAX); [|lia]. reflexivity.
Qed.

Lemma int_cases z : int z = Ok z ∨ int z = Undefined SignedOverflow.
Proof. unfold int. destruct (_ && _); auto. Qed.

Lemma size_t_small z : 0 ≤ z < 2 ^ 64 → size_t z = z.
Proof. intros. unfold size_t. now apply Z.mod_small. Qed.



Lemma exit_code_store {A} (cells : list A) offset data :
  exit_code (store cells offset data) = None.
Proof. unfold store. now destruct (_ && _). Qed.


Lemma decode_encode_Description d : decode_Description (encode_Description d) = Some d.
Proof.
  unfold decode_Description.
  remember (encode_Description d) as cells eqn:Hcells.
  destruct cells as [|cell cells]; [discriminate|].
  injection Hcells as -> Hcells.
  now rewrite decide_True by (now rewrite Hcells).
Qed.

(** ** owned_array.c *)

Section OwnedArrayFacts.
Implicit Types (array : OwnedArray) (element destination : block).

(** grow_on_overflow touches the [capacity] field only: unchanged when
    [new_count] fits, 4 from 0, doubled otherwise. *)
Lemma grow_on_overflow_fields array new_count array' :
  grow_on_overflow array new_count = Ok array' →
  head array' = head array
  ∧ element_size array' = element_size array
  ∧ count array' = count array
  ∧ capacity array' =
      (if new_count <=? capacity array then capacity array
       else if capacity array =? 0 then 4 else capacity array * 2).
Proof.
  unfold grow_on_overflow.
  destruct (new_count <=? capacity array).
  - intros [= <-]. auto.
  - destruct (capacity array =? 0).
    + intros [= <-]. auto.
    + destruct (int_cases (capacity array * 2)) as [-> | ->]; [|discriminate].
      intros [= <-]. auto.
Qed.

(** The [capacity] field after grow_on_overflow is at least the new count. *)
Lemma grow_on_overflow_fits array new_count array' :
  0 ≤ capacity array →
  new_count ≤ capacity array + 1 →
  grow_on_overflow array new_count = Ok array' →
  new_count ≤ capacity array'.
Proof.
  intros Hcap Hnew Hgrow.
  apply grow_on_overflow_fields in Hgrow as (_ & _ & _ & ->).
  destruct (Z.leb_spec new_count (capacity array)); [assumption|].
  destruct (Z.eqb_spec (capacity array) 0); lia.
Qed.

Lemma grow_on_overflow_returns array new_count :
  capacity array * 2 ≤ INT_MAX → 0 ≤ capacity array →
  ∃ array', grow_on_overflow array new_count = Ok array'.
Proof.
  intros Hmax Hcap. unfold grow_on_overflow.
  destruct (new_count <=? capacity array); [eauto|].
  destruct (capacity array =? 0); [simpl; eauto|].
  rewrite int_in_range by (unfold INT_MIN, INT_MAX in *; lia). simpl. eauto.
Qed.


Lemma is_out_of_range_outside array index :
  0 ≤ count array ≤ INT_MAX →
  index < 0 ∨ count array ≤ index →
  is_out_of_range array index = Ok true.
Proof.
  intros Hcount Hindex. unfold is_out_of_range.
  destruct (Z.eqb_spec (count array) 0) as [|Hne]; [reflexivity|].
  destruct (Z.ltb_spec index 0) as [|Hge]; [reflexivity|].
  rewrite int_in_range by (unfold INT_MIN, INT_MAX in *; lia).
  rewrite bind_Ok. f_equal. apply Z.ltb_lt. lia.
Qed.

Lemma is_out_of_range_inside array index :
  0 ≤ index < count array → count array ≤ INT_MAX →
  is_out_of_range array index = Ok false.
Proof.
  intros Hindex Hcount. unfold is_out_of_range.
  destruct (Z.eqb_spec (count array) 0) as [|Hne]; [lia|].
  destruct (Z.ltb_spec index 0) as [|Hge]; [lia|].
  rewrite int_in_range by (unfold INT_MIN, INT_MAX in *; lia).
  rewrite bind_Ok. f_equal. apply Z.ltb_ge. lia.
Qed.
End OwnedArrayFacts.

(** C1 (owned_array_append, owned_array_copy): appended elements are not
    retrievable.  The first append to an initialized store of [int]s,
    owned_array_append(array, &two), has undefined behaviour: realloc leaves a
    block of 1 byte and the 4 bytes of the element are moved to byte offset 4
    of it.  And on a store whose two elements 7 and 9 do lie in insertion
    order, owned_array_copy at index 1 copies the bytes 1 to 4 of the block,
    not the second element. *)
Theorem owned_array_append_first_element_out_of_bounds :
  owned_array_init (Some int_array) 4 = Some int_array
  ∧ owned_array_append int_array (encode_small_int x02) = Undefined OutOfBounds
  ∧ owned_array_copy two_ints (malloc 4) 1 = Ok [Raw x00; Raw x00; Raw x00; Raw x09]
  ∧ encode_small_int x09 = [Raw x09; Raw x00; Raw x00; Raw x00].
Proof. repeat split. Qed.

(** C4 (owned_array_copy): for a store that holds [count] elements and an
    index below 0 or not below [count], the call returns and the destination
    is what it was. *)
Theorem owned_array_copy_out_of_range
    (array : OwnedArray) (destination : block) (index : Z) :
  0 ≤ count array ≤ INT_MAX →
  index < 0 ∨ count array ≤ index →
  owned_array_copy array destination index = Ok destination.
Proof.
  intros Hcount Hindex. unfold owned_array_copy.
  rewrite is_out_of_range_outside by assumption. reflexivity.
Qed.

Lemma owned_array_copy_out_of_range_witness :
  (0 ≤ count two_ints ≤ INT_MAX)
  ∧ (2 < 0 ∨ count two_ints ≤ 2)
  ∧ owned_array_copy two_ints (encode_small_int x05) 2 = Ok (encode_small_int x05).
Proof.
  split; [|split].
  - unfold INT_MAX; simpl; lia.
  - right; simpl; lia.
  - apply (owned_array_copy_out_of_range two_ints (encode_small_int x05) 2).
    + unfold INT_MAX; simpl; lia.
    + right; simpl; lia.
Defined.

(** C5 (grow_on_overflow, owned_array_append): the growth policy reaches the
    [capacity] field only.  On the first append of a [Description] to the
    initialized store, [capacity] goes from 0 to 4, but the block realloc
    hands back has 1 byte, not the 48 of one element, and the append has
    undefined behaviour. *)
Theorem owned_array_append_block_too_small :
  let array :=
    {| head := None; capacity := 0; element_size := sizeof_Description; count := 0 |} in
  grow_on_overflow array 1
  = Ok {| head := None; capacity := 4; element_size := sizeof_Description; count := 0 |}
  ∧ realloc (head array) 1 = Some [Undef]
  ∧ Z.of_nat (length (encode_Description demo_description)) = sizeof_Description
  ∧ owned_array_append array (encode_Description demo_description)
    = Undefined OutOfBounds.
Proof. repeat split. Qed.

(** ** hx_string.c *)

Lemma strlen_nonneg buffer n : strlen buffer = Ok n → 0 ≤ n.
Proof.
  unfold strlen. destruct (list_find _ _) as [[]|]; [|discriminate].
  intros [= <-]. lia.
Qed.

Lemma exit_code_strlen buffer : exit_code (strlen buffer) = None.
Proof. unfold strlen. now destruct (list_find _ _) as [[]|]. Qed.

Lemma exit_code_strnlen buffer n : exit_code (strnlen buffer n) = None.
Proof.
  unfold strnlen. destruct (list_find _ _) as [[]|]; [reflexivity|].
  now destruct (_ <=? _).
Qed.

Lemma exit_code_strcpy_at destination offset source :
  exit_code (strcpy_at destination offset source) = None.
Proof.
  unfold strcpy_at. apply exit_code_bind; [apply exit_code_strlen|].
  intros. apply exit_code_store.
Qed.

Lemma exit_code_strlcat destination source size :
  exit_code (strlcat destination source size) = None.
Proof.
  unfold strlcat. apply exit_code_bind; [apply exit_code_strnlen|].
  intros destination_length.
  apply exit_code_bind; [apply exit_code_strlen|]. intros source_length.
  destruct (_ =? _); [reflexivity|].
  apply exit_code_bind; [apply exit_code_store|]. reflexivity.
Qed.

(** An empty source returns 0 at once, whatever the strategy and the room. *)
Lemma hx_strcat_empty_source ENAMETOOLONG has_strlcat destination destination_size
    source strategy :
  strlen source = Ok 0 →
  hx_strcat ENAMETOOLONG has_strlcat destination destination_size source strategy
  = Ok (0, destination).
Proof. intros Hsource. unfold hx_strcat. now rewrite Hsource. Qed.

(** C8 (hx_strcat): with a strategy other than TRUNCATE, a source of at
    least one character and a destination whose room after its own characters,
    [destination_size - destination_length], is less than the source with its
    terminator, the call ends the process with exit(ENAMETOOLONG); with
    TRUNCATE no call ends the process. *)
Theorem hx_strcat_aborts_when_source_does_not_fit
    (ENAMETOOLONG : Z) (has_strlcat : bool)
    (destination : list ascii) (destination_size : Z) (source : list ascii)
    (strategy : ConcatenationStrategy) (destination_length source_length : Z) :
  strlen destination = Ok destination_length →
  strlen source = Ok source_length →
  0 < source_length →
  destination_length + source_length + 1 < 2 ^ 64 →
  strategy ≠ TRUNCATE →
  destination_size - destination_length < source_length + 1 →
  hx_strcat ENAMETOOLONG has_strlcat destination destination_size source strategy
  = Exit ENAMETOOLONG
  ∧ ∀ destination destination_size source,
      exit_code (hx_strcat ENAMETOOLONG has_strlcat destination destination_size
                   source TRUNCATE) = None.
Proof.
  intros Hdestination Hsource Hnonempty Hrange Hstrategy Hfit. split.
  - unfold hx_strcat. rewrite Hsource, bind_Ok.
    destruct (Z.eqb_spec source_length 0); [lia|].
    rewrite (bool_decide_eq_true_2 (strategy ≠ TRUNCATE)) by assumption.
    rewrite Hdestination, !bind_Ok.
    apply strlen_nonneg in Hdestination.
    rewrite (size_t_small (source_length + 1)) by lia.
    rewrite size_t_small by lia.
    destruct (Z.ltb_spec destination_size (destination_length + (source_length + 1)));
      [reflexivity | lia].
  - clear. intros destination destination_size source. unfold hx_strcat.
    apply exit_code_bind; [apply exit_code_strlen|]. intros source_length.
    destruct (_ =? _); [reflexivity|].
    rewrite (bool_decide_eq_false_2 (TRUNCATE ≠ TRUNCATE)) by (intros H; now apply H).
    rewrite bind_Ok.
    rewrite (bool_decide_eq_false_2 (TRUNCATE = SEQUENTIAL)) by discriminate.
    destruct has_strlcat; [apply exit_code_strlcat|].
    apply exit_code_bind; [apply exit_code_strlen|]. intros destination_length.
    apply exit_code_bind; [apply exit_code_strcpy_at|]. reflexivity.
Qed.

Lemma hx_strcat_aborts_witness :
  strlen (buffer_of "/tmp" 8) = Ok 4
  ∧ strlen (buffer_of "/build" 7) = Ok 6
  ∧ hx_strcat 36 false (buffer_of "/tmp" 8) 8 (buffer_of "/build" 7) FILL = Exit 36
  ∧ ∀ destination destination_size source,
      exit_code (hx_strcat 36 false destination destination_size source TRUNCATE) = None.
Proof.
  split; [reflexivity|]. split; [reflexivity|].
  apply (hx_strcat_aborts_when_source_does_not_fit 36 false
           (buffer_of "/tmp" 8) 8 (buffer_of "/build" 7) FILL 4 6);
    [reflexivity | reflexivity | lia | lia | discriminate | lia].
Defined.

(** A source that fits exactly is not refused: 4 + 3 + 1 = 8.  With strlcat
    the destination holds "/tmp/ab" afterwards; on the other branch the source
    is copied to the bytes after the terminator of the destination, one byte
    further than the buffer reaches. *)
Example hx_strcat_exact_fit :
  hx_strcat 63 true (buffer_of "/tmp" 8) 8 (buffer_of "/ab" 4) FILL
  = Ok (7, buffer_of "/tmp/ab" 8)
  ∧ hx_strcat 36 false (buffer_of "/tmp" 8) 8 (buffer_of "/ab" 4) FILL
    = Undefined OutOfBounds.
Proof. split; reflexivity. Qed.

(** ** argparser.c: the option scanner *)

(** The first iteration of the loop of argparser_getopt finds [optstring]
    null and copies into it. *)
Lemma argparser_getopt_loop_null_optstring remaining index options gnu_options :
  (∃ argparser_option, options !! Z.to_nat index = Some argparser_option) →
  0 ≤ index < Z.of_nat (length gnu_options) →
  argparser_getopt_loop (S remaining) index options gnu_options None
  = Undefined NullPointer.
Proof.
  intros [argparser_option Hoption] Hindex. simpl. rewrite Hoption.
  unfold store. simpl length.
  destruct (Z.leb_spec 0 index); [|lia].
  destruct (Z.leb_spec (index + Z.of_nat 1) (Z.of_nat (length gnu_options))); [|lia].
  reflexivity.
Qed.

(** The loop hands back no option string at all: it only returns when it has
    nothing to iterate over, and then [optstring] is still null. *)
Lemma argparser_getopt_loop_returns remaining index options gnu_options result :
  argparser_getopt_loop remaining index options gnu_options None = Ok result →
  remaining = 0%nat ∧ result = (gnu_options, None).
Proof.
  destruct remaining as [|remaining]; simpl.
  - intros [= <-]. auto.
  - destruct (options !! Z.to_nat index); [|discriminate].
    destruct (store _ _ _); discriminate.
Qed.

Lemma argparser_getopt_null_optstring argc argv option_count options :
  0 < option_count → options ≠ [] →
  argparser_getopt argc argv option_count options = Undefined NullPointer.
Proof.
  intros Hcount Hoptions. unfold argparser_getopt.
  destruct (Z.to_nat option_count) as [|remaining] eqn:Hremaining; [lia|].
  rewrite argparser_getopt_loop_null_optstring; [reflexivity | |].
  - destruct options as [|argparser_option options]; [done|].
    now exists argparser_option.
  - rewrite length_replicate. lia.
Qed.

(** No call of argparser_getopt returns. *)
Lemma argparser_getopt_never_returns argc argv option_count options :
  undefined (argparser_getopt argc argv option_count options).
Proof.
  unfold argparser_getopt.
  destruct (Z.to_nat option_count) as [|remaining]; [now eexists|].
  cbn [argparser_getopt_loop]. change (Z.to_nat 0) with 0%nat.
  destruct (options !! 0%nat) as [argparser_option|]; [|now eexists].
  destruct (store _ 0 _) as [stored| | |] eqn:Hstore;
    try (unfold store in Hstore; destruct (_ && _); discriminate);
    now eexists.
Qed.

(** execute_default stops in its first call of argparser_getopt, whatever the
    command line and whatever has been described. *)
Lemma execute_default_null_optstring fuel p argc argv :
  execute_default (S fuel) p argc argv = Undefined NullPointer.
Proof. reflexivity. Qed.


(** C9 (argparser_getopt): no option string is assembled.  For the table of
    default options the loop stops in its first iteration, at
    strcpy(optstring, &argparser_option.short_name) with [optstring] null, and
    so does every call of argparser_getopt that execute_default makes. *)
Theorem argparser_getopt_optstring_null :
  argparser_getopt_loop (Z.to_nat default_option_count) 0 default_options
    (replicate (Z.to_nat default_option_count) None) None
  = Undefined NullPointer
  ∧ ∀ argc argv,
      argparser_getopt argc argv default_option_count default_options
      = Undefined NullPointer.
Proof. split; reflexivity. Qed.

(** ** argparser.c: the dispatch behind the scanner

    What the [while] loop of execute_default does with the flags of a scanner
    that returns.  argparser_getopt is no such scanner, so these four
    statements describe code that no call of execute_default reaches. *)

Lemma default_options_loop_help p argv :
  default_options_loop (Z.to_nat default_option_count) 0 p argv 104 =
    match descriptions p with
    | None => Ok (Some (UNDESCRIBED, p))
    | Some array =>
        match argv !! 0%nat with
        | None => Undefined OutOfBounds
        | Some program_name =>
            the_description ←
              find_description (Z.to_nat (count array)) array program_name 0 None;
            match the_description with
            | None => Ok (Some (UNDESCRIBED, p))
            | Some the_description =>
                p ← help p the_description; Ok (Some (EXECUTED, p))
            end
        end
    end.
Proof. reflexivity. Qed.

Lemma execute_default_with_help scanner fuel calls p argv :
  scanner calls = Ok 104 →
  execute_default_with scanner (S fuel) calls p argv =
    (returned ← default_options_loop (Z.to_nat default_option_count) 0 p argv 104;
     match returned with
     | Some result => Ok result
     | None => execute_default_with scanner fuel (S calls) p argv
     end).
Proof. intros H. cbn [execute_default_with]. now rewrite H. Qed.

(** The scanner reports the end of the options: NONE. *)
Lemma execute_default_with_end scanner fuel calls p argv :
  scanner calls = Ok (-1) →
  execute_default_with scanner (S fuel) calls p argv = Ok (NONE, p).
Proof. intros H. simpl. now rewrite H. Qed.

(** A flag other than 'h' is passed over. *)
Lemma execute_default_with_other_flag scanner fuel calls p argv flag :
  scanner calls = Ok flag → flag ≠ -1 → flag ≠ 104 →
  execute_default_with scanner (S fuel) calls p argv
  = execute_default_with scanner fuel (S calls) p argv.
Proof.
  intros H Hend Hhelp. simpl. rewrite H, bind_Ok.
  destruct (Z.eqb_spec flag (-1)); [done|].
  change (Z.of_nat (nat_of_ascii "h")) with 104.
  destruct (Z.eqb_spec flag 104); [done|]. reflexivity.
Qed.

(** 'h' with [descriptions] null: UNDESCRIBED, nothing printed. *)
Lemma execute_default_with_undescribed scanner fuel calls p argv :
  scanner calls = Ok 104 → descriptions p = None →
  execute_default_with scanner (S fuel) calls p argv = Ok (UNDESCRIBED, p).
Proof.
  intros H Hnone.
  now rewrite execute_default_with_help, default_options_loop_help, Hnone.
Qed.

Lemma find_single_description d program_name :
  find_description 1 (single_description d) program_name 0 None
  = Ok (if ptr_eqb program_name (name d) then Some d else None).
Proof.
  cbn [find_description].
  change (owned_array_copy (single_description d) (malloc sizeof_Description) 0)
    with (Ok (encode_Description d) : outcome block).
  now rewrite bind_Ok, decode_encode_Description.
Qed.

(** 'h' with one description whose [name] is another pointer than argv[0]:
    UNDESCRIBED, nothing printed. *)
Lemma execute_default_with_no_match scanner fuel calls p argv d program_name :
  scanner calls = Ok 104 →
  descriptions p = Some (single_description d) →
  argv !! 0%nat = Some program_name →
  ptr_eqb program_name (name d) = false →
  execute_default_with scanner (S fuel) calls p argv = Ok (UNDESCRIBED, p).
Proof.
  intros H Hp Hargv Hname.
  rewrite execute_default_with_help, default_options_loop_help, Hp, Hargv by assumption.
  change (Z.to_nat (count (single_description d))) with 1%nat.
  now rewrite find_single_description, Hname.
Qed.

(** 'h' with one description whose [name] is the pointer argv[0]: help for
    it, then EXECUTED. *)
Lemma execute_default_with_match scanner fuel calls p argv d program_name :
  scanner calls = Ok 104 →
  descriptions p = Some (single_description d) →
  argv !! 0%nat = Some program_name →
  ptr_eqb program_name (name d) = true →
  execute_default_with scanner (S fuel) calls p argv
  = (p ← help p d; Ok (EXECUTED, p)).
Proof.
  intros H Hp Hargv Hname.
  rewrite execute_default_with_help, default_options_loop_help, Hp, Hargv by assumption.
  change (Z.to_nat (count (single_description d))) with 1%nat.
  rewrite find_single_description, Hname, bind_Ok.
  now destruct (help p d).
Qed.

(** The same characters at another address are no match: the comparison is
    on the pointers. *)
Example find_description_compares_pointers :
  find_description 1 (single_description demo_description)
    (Some {| address := 8192; chars := "demo" |}) 0 None = Ok None.
Proof. now rewrite find_single_description. Qed.

(** With two descriptions stored one after the other, the copy for index 1
    starts at byte 1 of the block and what it yields is no description. *)
Example find_description_second_element :
  find_description 2
    {| head := Some (encode_Description demo_description
                     ++ encode_Description demo_description);
       capacity := 4; element_size := sizeof_Description; count := 2 |}
    (Some demo_name) 0 None
  = Undefined IndeterminateValue.
Proof. reflexivity. Qed.

(** ** argparser.c: describe and execute_default *)

(** C2 (execute_default, help): no help is printed and EXECUTED is not
    returned.  describe("demo", "A demo.", 0, NULL, 0, NULL) on a fresh process
    already has undefined behaviour in owned_array_append, and
    execute_default(2, {"demo", "--help"}), with argv[0] the very pointer that
    was described, stops in argparser_getopt at strcpy through the null
    [optstring], in whatever state the process is. *)
Theorem execute_default_help_undefined_after_describe :
  describe initial_process (Some demo_name) (Some demo_overview) 0 [] 0 []
  = Undefined OutOfBounds
  ∧ ∀ fuel p,
      execute_default (S fuel) p 2
        [Some demo_name; Some {| address := 8197; chars := "--help" |}]
      = Undefined NullPointer.
Proof. split; reflexivity. Qed.

(** C6 (execute_default): called before any describe with "--help" on the
    command line, execute_default does not return UNDESCRIBED: it stops in
    argparser_getopt at strcpy through the null [optstring]. *)
Theorem execute_default_undescribed_undefined :
  ∀ fuel,
    execute_default (S fuel) initial_process 2 (argv_at 8192 ["demo"; "--help"])
    = Undefined NullPointer.
Proof. reflexivity. Qed.

(** C7 (execute_default): for the command line {"demo", "build"}, with or
    without a description, execute_default does not return NONE: it stops in
    argparser_getopt at strcpy through the null [optstring]. *)
Theorem execute_default_no_flag_undefined :
  ∀ fuel p,
    execute_default (S fuel) p 2 (argv_at 8192 ["demo"; "build"])
    = Undefined NullPointer.
Proof. reflexivity. Qed.

(** C10 (execute_default): with "other" described and the command line
    {"demo", "--help"}, execute_default does not return UNDESCRIBED.  The
    describe has undefined behaviour in owned_array_append, and in whatever
    state the process is, execute_default stops in argparser_getopt at strcpy
    through the null [optstring]. *)
Theorem execute_default_unmatched_name_undefined :
  describe initial_process (Some other_name) (Some demo_overview) 0 [] 0 []
  = Undefined OutOfBounds
  ∧ ∀ fuel p,
      execute_default (S fuel) p 2 (argv_at 8192 ["demo"; "--help"])
      = Undefined NullPointer.
Proof. split; reflexivity. Qed.

(** ** argparser.c: subcommand *)

Lemma append_cons (c : ascii) (s t : string) : String c s +:+ t = String c (s +:+ t).
Proof. reflexivity. Qed.

Lemma append_snoc (b : string) (c : ascii) (rest : string) :
  (b +:+ String c EmptyString) +:+ rest = b +:+ String c rest.
Proof.
  induction b as [|a b IH]; [reflexivity|].
  rewrite !append_cons. now rewrite IH.
Qed.

Lemma trim_start_loop_started (text buffer : string) :
  trim_start_loop text (Some buffer) = Some (buffer +:+ text).
Proof.
  revert buffer. induction text as [|c text IH]; intros buffer; simpl.
  - f_equal. induction buffer as [|a b IHb]; [reflexivity|].
    rewrite append_cons. now rewrite <- IHb.
  - rewrite IH. now rewrite append_snoc.
Qed.

Lemma trim_start_loop_spaces (text : string) :
  trim_start_loop text None =
    match trim_leading_spaces text with
    | EmptyString => None
    | trimmed => Some trimmed
    end.
Proof.
  induction text as [|c text IH]; simpl; [reflexivity|].
  destruct (Ascii.eqb c " "); [assumption|].
  now rewrite trim_start_loop_started.
Qed.

(** trim_start removes the leading spaces of a string that has other
    characters, and leaves a string of spaces only as it is. *)
Lemma trim_start_spec (text : string) :
  trim_start text =
    match trim_leading_spaces text with
    | EmptyString => text
    | trimmed => trimmed
    end.
Proof.
  unfold trim_start. rewrite trim_start_loop_spaces.
  now destruct (trim_leading_spaces text).
Qed.

Lemma trim_start_not_blank (text : string) :
  ¬ blank text → trim_start text = trim_leading_spaces text.
Proof.
  intros Hblank. rewrite trim_start_spec.
  destruct (trim_leading_spaces text) eqn:Htrim; [|reflexivity].
  destruct text; [reflexivity|]. exfalso. apply Hblank.
  split; [discriminate|assumption].
Qed.

Lemma trim_start_blank (text : string) : blank text → trim_start text = text.
Proof. intros [_ Htrim]. now rewrite trim_start_spec, Htrim. Qed.

Lemma strchr_nonneg (text : string) (character : ascii) (offset : Z) :
  strchr text character = Some offset → 0 ≤ offset.
Proof.
  revert offset. induction text as [|a text IH]; simpl; [discriminate|].
  destruct (Ascii.eqb a character); [intros ? [= <-]; lia|].
  destruct (strchr text character); simpl; [|discriminate].
  intros ? [= <-]. specialize (IH _ eq_refl). lia.
Qed.

Lemma first_index_dash (text : string) :
  (first_index text "-" =? 0) =
    match text with
    | EmptyString => false
    | String character _ => Ascii.eqb character "-"
    end.
Proof.
  unfold first_index. destruct text as [|c text]; simpl; [reflexivity|].
  destruct (Ascii.eqb c "-"); [reflexivity|].
  destruct (strchr text "-") as [offset|] eqn:H; simpl; [|reflexivity].
  apply strchr_nonneg in H. apply Z.eqb_neq. lia.
Qed.

Lemma string_length_zero (text : string) :
  (Z.of_nat (String.length text) =? 0) = String.eqb text "".
Proof. now destruct text. Qed.

(** The loop of subcommand from an argument on, against the sentence of the
    specification: [scanned] are the entries before [index], and
    [last_option_index] is [index - 1] exactly when the entry before is an
    option. *)
Lemma subcommand_loop_agrees (arguments : list c_string) :
  ∀ (scanned : list char_ptr) (last_option_index : Z) (previous_is_option : bool),
    (1 ≤ length scanned)%nat →
    (if previous_is_option
     then last_option_index = Z.of_nat (length scanned) - 1
     else last_option_index < Z.of_nat (length scanned) - 1) →
    Forall (λ argument, ¬ blank (chars argument)) arguments →
    text_of (subcommand_loop (length arguments) (scanned ++ (Some <$> arguments))
               (Z.of_nat (length scanned)) last_option_index)
    = Ok (first_subcommand_after previous_is_option (chars <$> arguments)).
Proof.
  induction arguments as [|argument arguments IH];
    intros scanned last previous Hscanned Hlast Hblank; [reflexivity|].
  apply Forall_cons in Hblank as [Hargument Hblank].
  cbn [subcommand_loop length fmap list_fmap first_subcommand_after].
  rewrite Nat2Z.id, list_lookup_middle by reflexivity.
  cbn [chars address]. rewrite (trim_start_not_blank _ Hargument).
  rewrite string_length_zero, first_index_dash.
  assert (Z.of_nat (length scanned) + 1 = Z.of_nat (length (scanned ++ [Some argument])))
    as Hnext by (rewrite length_app; simpl; lia).
  assert (∀ last' previous',
    (if previous' : bool
     then last' = Z.of_nat (length scanned)
     else last' < Z.of_nat (length scanned)) →
    text_of (subcommand_loop (length arguments)
               (scanned ++ Some argument :: (Some <$> arguments))
               (Z.of_nat (length scanned) + 1) last')
    = Ok (first_subcommand_after previous' (chars <$> arguments))) as Hgo.
  { intros last' previous' Hlast'. rewrite Hnext, cons_middle, app_assoc.
    apply IH; [rewrite length_app; simpl; lia | | assumption].
    rewrite <- Hnext. destruct previous'; lia. }
  unfold is_option_token.
  destruct (trim_leading_spaces (chars argument)) as [|character trimmed] eqn:Htrim.
  - simpl. apply Hgo. destruct previous; lia.
  - cbn [String.eqb negb andb].
    destruct (Ascii.eqb character "-") eqn:Hdash.
    + simpl. apply Hgo. reflexivity.
    + cbn [negb andb]. destruct previous.
      * subst last.
        destruct (Z.leb_spec 0 (Z.of_nat (length scanned) - 1)); [|lia].
        destruct (Z.eqb_spec (Z.of_nat (length scanned))
                    (Z.of_nat (length scanned) - 1 + 1)); [|lia].
        simpl. apply Hgo. lia.
      * destruct (Z.eqb_spec (Z.of_nat (length scanned)) (last + 1)); [lia|].
        rewrite andb_false_r. reflexivity.
Qed.

(** On a command line none of whose arguments is made of spaces only,
    subcommand returns what the specification says. *)
Lemma subcommand_agrees_without_blank_arguments (argv : list c_string) :
  argv ≠ [] →
  Forall (λ argument, ¬ blank (chars argument)) (tail argv) →
  text_of (subcommand (Z.of_nat (length argv)) (Some <$> argv))
  = Ok (subcommand_of_claim (chars <$> argv)).
Proof.
  destruct argv as [|program arguments]; [done|]. intros _ Hblank.
  unfold subcommand, subcommand_of_claim. cbn [tail fmap list_fmap length] in *.
  destruct (Z.eqb_spec (Z.of_nat (S (length arguments))) 1) as [Hone|Hmore].
  - destruct arguments; [reflexivity | simpl in Hone; lia].
  - replace (Z.to_nat (Z.of_nat (S (length arguments)) - 1)) with (length arguments)
      by lia.
    apply (subcommand_loop_agrees arguments [Some program] (-1) false);
      [simpl; lia | simpl; lia | assumption].
Qed.

(** The examples of the specification. *)
Example subcommand_simple :
  text_of (subcommand 2 (argv_at 8192 ["prog"; "build"])) = Ok (Some "build").
Proof. reflexivity. Qed.

Example subcommand_after_option_value :
  text_of (subcommand 4 (argv_at 8192 ["prog"; "-x"; "value"; "build"]))
  = Ok (Some "build").
Proof. reflexivity. Qed.

Example subcommand_none :
  subcommand 1 (argv_at 8192 ["prog"]) = Ok None
  ∧ subcommand 2 (argv_at 8192 ["prog"; "-h"]) = Ok None.
Proof. split; reflexivity. Qed.

(** C3 (subcommand, trim_start): an argument of spaces only is not trimmed to
    nothing and skipped.  For {"prog", "   ", "build"} subcommand returns the
    three spaces, where the first token that is non-empty after trimming, no
    option and not behind an option is "build"; for {"prog", "   "} it returns
    the three spaces where there is no such token. *)
Theorem subcommand_returns_blank_argument :
  text_of (subcommand 3 (argv_at 8192 ["prog"; "   "; "build"])) = Ok (Some "   ")
  ∧ subcommand_of_claim ["prog"; "   "; "build"] = Some "build"
  ∧ text_of (subcommand 2 (argv_at 8192 ["prog"; "   "])) = Ok (Some "   ")
  ∧ subcommand_of_claim ["prog"; "   "] = None
  ∧ trim_start "   " = "   ".
Proof. repeat split. Qed.

(** * Further properties *)

(** ** Blocks and buffers *)

Lemma store_Ok {A} (cells data : list A) offset :
  0 ≤ offset → offset + Z.of_nat (length data) ≤ Z.of_nat (length cells) →
  store cells offset data
  = Ok (take (Z.to_nat offset) cells ++ data
        ++ drop (Z.to_nat offset + length data) cells).
Proof.
  intros Hlo Hhi. unfold store.
  destruct (Z.leb_spec 0 offset); [|lia].
  destruct (Z.leb_spec (offset + Z.of_nat (length data)) (Z.of_nat (length cells))); [|lia].
  reflexivity.
Qed.



Lemma load_Ok {A} (cells : list A) offset size :
  0 ≤ offset → 0 ≤ size → offset + size ≤ Z.of_nat (length cells) →
  load cells offset size = Ok (take (Z.to_nat size) (drop (Z.to_nat offset) cells)).
Proof.
  intros Hlo Hsize Hhi. unfold load.
  destruct (Z.leb_spec 0 offset); [|lia].
  destruct (Z.leb_spec 0 size); [|lia].
  destruct (Z.leb_spec (offset + size) (Z.of_nat (length cells))); [|lia].
  reflexivity.
Qed.

Lemma load_outside {A} (cells : list A) offset size :
  Z.of_nat (length cells) < offset + size →
  load cells offset size = Undefined OutOfBounds.
Proof.
  intros H. unfold load.
  destruct (Z.leb_spec (offset + size) (Z.of_nat (length cells))); [lia|].
  now rewrite andb_false_r.
Qed.

Lemma strlen_Ok_iff (buffer : list ascii) (n : Z) :
  strlen buffer = Ok n ↔
  0 ≤ n ∧ buffer !! Z.to_nat n = Some NUL
  ∧ ∀ (j : nat) c, buffer !! j = Some c → (j < Z.to_nat n)%nat → c ≠ NUL.
Proof.
  unfold strlen. split.
  - destruct (list_find _ buffer) as [[i c]|] eqn:Hfind; [|discriminate].
    intros [= <-]. apply list_find_Some in Hfind as (Hi & -> & Hbefore).
    rewrite Nat2Z.id. split; [lia|]. split; [assumption|]. exact Hbefore.
  - intros (Hn & Hat & Hbefore).
    assert (list_find (λ c, c = NUL) buffer = Some (Z.to_nat n, NUL)) as ->.
    { apply list_find_Some. auto. }
    f_equal. lia.
Qed.

Lemma strlen_lt_length buffer n :
  strlen buffer = Ok n → 0 ≤ n < Z.of_nat (length buffer).
Proof.
  intros (Hn & Hat & _)%strlen_Ok_iff. apply lookup_lt_Some in Hat. lia.
Qed.

Lemma strlen_prefix_no_NUL buffer n :
  strlen buffer = Ok n → Forall (λ c, c ≠ NUL) (take (Z.to_nat n) buffer).
Proof.
  intros (Hn & Hat & Hbefore)%strlen_Ok_iff. apply Forall_lookup.
  intros j c Hj. apply lookup_take_Some in Hj as [Hj Hlt]. eauto.
Qed.

Lemma strlen_app_NUL (characters rest : list ascii) :
  Forall (λ c, c ≠ NUL) characters →
  strlen (characters ++ NUL :: rest) = Ok (Z.of_nat (length characters)).
Proof.
  intros Hchars. apply strlen_Ok_iff. rewrite Nat2Z.id. split; [lia|]. split.
  - now rewrite list_lookup_middle.
  - intros j c Hj Hlt. rewrite lookup_app_l in Hj by assumption.
    eapply Forall_lookup_1 in Hchars; eauto.
Qed.

Lemma strnlen_of_strlen buffer n limit :
  strlen buffer = Ok n → n < limit → strnlen buffer limit = Ok n.
Proof.
  intros Hlen Hlimit. pose proof (strlen_lt_length _ _ Hlen) as Hn.
  apply strlen_Ok_iff in Hlen as (_ & Hat & Hbefore). unfold strnlen.
  assert (list_find (λ c, c = NUL)
            (take (Z.to_nat (Z.min limit (Z.of_nat (length buffer)))) buffer)
          = Some (Z.to_nat n, NUL)) as ->.
  { apply list_find_Some. split; [|split; [reflexivity|]].
    - rewrite lookup_take_lt by lia. assumption.
    - intros j c Hj Hlt. apply lookup_take_Some in Hj as [Hj _]. eauto. }
  f_equal. lia.
Qed.

Lemma c_string_of_Some buffer characters :
  c_string_of buffer = Some characters ↔
  strlen buffer = Ok (Z.of_nat (length characters))
  ∧ take (length characters) buffer = characters.
Proof.
  unfold c_string_of. split.
  - destruct (strlen buffer) as [n| | |] eqn:Hlen; try discriminate.
    intros [= <-]. pose proof (strlen_lt_length _ _ Hlen).
    rewrite length_take, Nat.min_l by lia. rewrite Z2Nat.id by lia. auto.
  - intros [-> Htake]. now rewrite Nat2Z.id, Htake.
Qed.

Lemma c_string_of_no_NUL buffer characters :
  c_string_of buffer = Some characters → Forall (λ c, c ≠ NUL) characters.
Proof.
  intros [Hlen <-]%c_string_of_Some.
  apply strlen_prefix_no_NUL in Hlen. now rewrite Nat2Z.id in Hlen.
Qed.

Lemma c_string_of_app_NUL (characters rest : list ascii) :
  Forall (λ c, c ≠ NUL) characters →
  c_string_of (characters ++ NUL :: rest) = Some characters.
Proof.
  intros Hchars. apply c_string_of_Some. split.
  - now apply strlen_app_NUL.
  - now rewrite take_app_length.
Qed.

(** Writing [data] and a terminator at [offset] of a buffer. *)
Lemma store_string (destination data : list ascii) (offset : Z) :
  0 ≤ offset →
  offset + Z.of_nat (length data) + 1 ≤ Z.of_nat (length destination) →
  ∃ destination',
    store destination offset (data ++ [NUL]) = Ok destination'
    ∧ destination' = take (Z.to_nat offset) destination ++ data ++ NUL
                     :: drop (Z.to_nat offset + length data + 1) destination
    ∧ length destination' = length destination.
Proof.
  intros Hoffset Hroom. eexists. split; [|split].
  - apply store_Ok; [assumption|]. rewrite length_app. simpl. lia.
  - rewrite length_app, <- app_assoc. simpl.
    now replace (Z.to_nat offset + (length data + 1))%nat
      with (Z.to_nat offset + length data + 1)%nat by lia.
  - rewrite !length_app, length_take, length_drop. simpl. lia.
Qed.

(** Writing [data] and a terminator over the terminator of the string in
    [destination] leaves the one string followed by the other. *)
Lemma store_concatenation (destination d data : list ascii) :
  c_string_of destination = Some d →
  Forall (λ c, c ≠ NUL) data →
  Z.of_nat (length d) + Z.of_nat (length data) + 1 ≤ Z.of_nat (length destination) →
  ∃ destination',
    store destination (Z.of_nat (length d)) (data ++ [NUL]) = Ok destination'
    ∧ c_string_of destination' = Some (d ++ data)
    ∧ length destination' = length destination.
Proof.
  intros Hd Hdata Hroom.
  destruct (store_string destination data (Z.of_nat (length d)))
    as (destination' & Hstore & Heq & Hlength); [lia | lia |].
  exists destination'. split; [assumption|]. split; [|assumption].
  pose proof (c_string_of_no_NUL _ _ Hd) as Hnonul.
  apply c_string_of_Some in Hd as [_ Htake].
  rewrite Heq, Nat2Z.id, Htake, app_assoc.
  apply c_string_of_app_NUL, Forall_app. auto.
Qed.

(** ** owned_array.c, further *)

(** X1 (grow_on_overflow): for a capacity from 0 to 2^30 - 1 and a new count
    of at most one more than the capacity, grow_on_overflow returns; the new
    capacity is at least the new count and at least the old capacity, and
    [head], [element_size] and [count] are what they were. *)
Theorem grow_on_overflow_makes_room (array : OwnedArray) (new_count : Z) :
  0 ≤ capacity array ≤ 2 ^ 30 - 1 →
  new_count ≤ capacity array + 1 →
  ∃ array',
    grow_on_overflow array new_count = Ok array'
    ∧ new_count ≤ capacity array'
    ∧ capacity array ≤ capacity array'
    ∧ head array' = head array
    ∧ element_size array' = element_size array
    ∧ count array' = count array.
Proof.
  intros Hcapacity Hnew.
  destruct (grow_on_overflow_returns array new_count) as [array' Hgrow];
    [unfold INT_MAX; lia | lia |].
  exists array'. split; [assumption|].
  split; [eapply grow_on_overflow_fits; eauto; lia|].
  apply grow_on_overflow_fields in Hgrow as (-> & -> & -> & ->).
  repeat split.
  destruct (new_count <=? capacity array); [lia|].
  destruct (Z.eqb_spec (capacity array) 0); lia.
Qed.

Lemma grow_on_overflow_makes_room_witness :
  ∃ array',
    grow_on_overflow two_ints 5 = Ok array'
    ∧ 5 ≤ capacity array'
    ∧ capacity two_ints ≤ capacity array'
    ∧ head array' = head two_ints
    ∧ element_size array' = element_size two_ints
    ∧ count array' = count two_ints.
Proof. apply (grow_on_overflow_makes_room two_ints 5); simpl; lia. Defined.

(** X2 (grow_on_overflow): when the capacity is 2^30 or more and the new
    count exceeds it, the doubling [capacity * 2] overflows [int]. *)
Theorem grow_on_overflow_doubling_overflows (array : OwnedArray) (new_count : Z) :
  2 ^ 30 ≤ capacity array →
  capacity array < new_count →
  grow_on_overflow array new_count = Undefined SignedOverflow.
Proof.
  intros Hcapacity Hnew. unfold grow_on_overflow.
  destruct (Z.leb_spec new_count (capacity array)); [lia|].
  destruct (Z.eqb_spec (capacity array) 0); [lia|].
  unfold int, INT_MAX.
  destruct (Z.leb_spec (capacity array * 2) (2 ^ 31 - 1)); [lia|].
  now rewrite andb_false_r.
Qed.

Lemma grow_on_overflow_doubling_overflows_witness :
  grow_on_overflow
    {| head := None; capacity := 2 ^ 30; element_size := 1; count := 2 ^ 30 |}
    (2 ^ 30 + 1)
  = Undefined SignedOverflow.
Proof.
  apply (grow_on_overflow_doubling_overflows
           {| head := None; capacity := 2 ^ 30; element_size := 1; count := 2 ^ 30 |}
           (2 ^ 30 + 1)); simpl; lia.
Defined.

(** X3 (grow_on_overflow): a capacity that is 0 or 4 times a power of two
    stays one. *)
Theorem grow_on_overflow_capacity_shape (array array' : OwnedArray) (new_count : Z) :
  capacity array = 0 ∨ (∃ k : nat, capacity array = 4 * 2 ^ Z.of_nat k) →
  grow_on_overflow array new_count = Ok array' →
  capacity array' = 0 ∨ (∃ k : nat, capacity array' = 4 * 2 ^ Z.of_nat k).
Proof.
  intros Hshape (_ & _ & _ & ->)%grow_on_overflow_fields.
  destruct (new_count <=? capacity array); [assumption|].
  destruct (Z.eqb_spec (capacity array) 0) as [|Hne].
  - right. now exists 0%nat.
  - destruct Hshape as [|[k ->]]; [done|]. right. exists (S k).
    rewrite Nat2Z.inj_succ, Z.pow_succ_r by lia. lia.
Qed.

Lemma grow_on_overflow_capacity_shape_witness :
  capacity {| head := head two_ints; capacity := 8; element_size := 4; count := 2 |} = 0
  ∨ (∃ k : nat,
       capacity {| head := head two_ints; capacity := 8; element_size := 4; count := 2 |}
       = 4 * 2 ^ Z.of_nat k).
Proof.
  apply (grow_on_overflow_capacity_shape two_ints _ 5).
  - right. exists 0%nat. reflexivity.
  - reflexivity.
Defined.



(** A copy with an index in range, from a block that reaches far enough. *)
Lemma owned_array_copy_inside
    (array : OwnedArray) (cells destination : block) (index : Z) :
  head array = Some cells →
  0 ≤ index < count array →
  count array ≤ INT_MAX →
  0 ≤ element_size array →
  index + element_size array ≤ Z.of_nat (length cells) →
  element_size array ≤ Z.of_nat (length destination) →
  owned_array_copy array destination index
  = Ok (take (Z.to_nat (element_size array)) (drop (Z.to_nat index) cells)
        ++ drop (Z.to_nat (element_size array)) destination).
Proof.
  intros Hhead Hindex Hcount Hsize Hblock Hdestination. unfold owned_array_copy.
  rewrite is_out_of_range_inside, bind_Ok, Hhead by assumption.
  rewrite load_Ok by lia. rewrite bind_Ok.
  rewrite store_Ok; [| lia | rewrite length_take, length_drop; lia].
  rewrite length_take, length_drop. simpl. do 3 f_equal. lia.
Qed.

(** X5 (owned_array_copy): for an index from 0 to [count - 1], the copy puts
    the [element_size] bytes of the block that start at BYTE [index] at the
    start of the destination and leaves the rest of the destination. *)
Theorem owned_array_copy_in_range
    (array : OwnedArray) (cells destination : block) (index : Z) :
  head array = Some cells →
  0 ≤ index < count array →
  count array ≤ INT_MAX →
  0 ≤ element_size array →
  index + element_size array ≤ Z.of_nat (length cells) →
  element_size array ≤ Z.of_nat (length destination) →
  owned_array_copy array destination index
  = Ok (take (Z.to_nat (element_size array)) (drop (Z.to_nat index) cells)
        ++ drop (Z.to_nat (element_size array)) destination).
Proof. apply owned_array_copy_inside. Qed.

Lemma owned_array_copy_in_range_witness :
  owned_array_copy two_ints (malloc 6) 1
  = Ok [Raw x00; Raw x00; Raw x00; Raw x09; Undef; Undef].
Proof.
  apply (owned_array_copy_in_range two_ints
           (encode_small_int x07 ++ encode_small_int x09) (malloc 6) 1);
    [reflexivity | simpl; lia | unfold INT_MAX; simpl; lia | simpl; lia
     | simpl; lia | simpl; lia].
Defined.

(** X6 (owned_array_copy): for an index in range whose [element_size] bytes
    from byte [index] on do not all lie in the block, the copy reads outside
    the block. *)
Theorem owned_array_copy_past_block
    (array : OwnedArray) (cells destination : block) (index : Z) :
  head array = Some cells →
  0 ≤ index < count array →
  count array ≤ INT_MAX →
  Z.of_nat (length cells) < index + element_size array →
  owned_array_copy array destination index = Undefined OutOfBounds.
Proof.
  intros Hhead Hindex Hcount Hblock. unfold owned_array_copy.
  rewrite is_out_of_range_inside, bind_Ok, Hhead by assumption.
  now rewrite load_outside.
Qed.

Lemma owned_array_copy_past_block_witness :
  owned_array_copy
    {| head := Some [Undef]; capacity := 4; element_size := 4; count := 1 |}
    (malloc 4) 0
  = Undefined OutOfBounds.
Proof.
  apply (owned_array_copy_past_block
           {| head := Some [Undef]; capacity := 4; element_size := 4; count := 1 |}
           [Undef] (malloc 4) 0);
    [reflexivity | simpl; lia | unfold INT_MAX; simpl; lia | simpl; lia].
Defined.



(** ** hx_string.c, further *)

Lemma exit_code_strncat destination source n :
  exit_code (strncat destination source n) = None.
Proof.
  unfold strncat. apply exit_code_bind; [apply exit_code_strlen|]. intros dl.
  apply exit_code_bind; [apply exit_code_strnlen|]. intros appended.
  apply exit_code_store.
Qed.




Section HxStringFacts.
Variable ENAMETOOLONG : Z.
Variable has_strlcat : bool.
Implicit Types (destination source d s : list ascii).
Implicit Types (strategy : ConcatenationStrategy).

(** What is left of hx_strcat once the source is known to have characters
    and the test for room has passed or is skipped. *)
Lemma hx_strcat_passes destination destination_size source strategy d s :
  c_string_of destination = Some d →
  c_string_of source = Some s →
  s ≠ [] →
  Z.of_nat (length d) + Z.of_nat (length s) + 1 < 2 ^ 64 →
  strategy = TRUNCATE
  ∨ Z.of_nat (length d) + Z.of_nat (length s) + 1 ≤ destination_size →
  hx_strcat ENAMETOOLONG has_strlcat destination destination_size source strategy =
    (if bool_decide (strategy = SEQUENTIAL) then
       destination ← strncat destination source destination_size;
       Ok (0, destination)
     else if has_strlcat then strlcat destination source destination_size
     else
       destination_length ← strlen destination;
       let concatenation_index := to_int (destination_length + 1) in
       destination ← strcpy_at destination concatenation_index source;
       Ok (size_t (destination_length + Z.of_nat (length s) + 1), destination)).
Proof.
  intros [Hd _]%c_string_of_Some [Hs _]%c_string_of_Some Hnonempty Hrange Hfits.
  unfold hx_strcat. rewrite Hs, bind_Ok.
  destruct (Z.eqb_spec (Z.of_nat (length s)) 0) as [Hzero|_].
  { destruct s; [done | simpl in Hzero; lia]. }
  destruct (decide (strategy = TRUNCATE)) as [->|Hstrategy].
  - rewrite (bool_decide_eq_false_2 (TRUNCATE ≠ TRUNCATE)) by (intros H; now apply H).
    reflexivity.
  - destruct Hfits as [?|Hfits]; [done|].
    rewrite (bool_decide_eq_true_2 (strategy ≠ TRUNCATE)) by assumption.
    rewrite Hd, !bind_Ok.
    rewrite (size_t_small (Z.of_nat (length s) + 1)) by lia.
    rewrite size_t_small by lia.
    destruct (Z.ltb_spec destination_size
                (Z.of_nat (length d) + (Z.of_nat (length s) + 1))); [lia|].
    reflexivity.
Qed.

(** X8 (hx_strcat): a source without characters makes the call return 0 with
    the destination untouched, for every strategy, size and destination (a
    destination without terminator or without room included). *)
Theorem hx_strcat_empty_source_is_no_op destination destination_size source strategy :
  c_string_of source = Some [] →
  hx_strcat ENAMETOOLONG has_strlcat destination destination_size source strategy
  = Ok (0, destination).
Proof.
  intros [Hsource _]%c_string_of_Some. now apply hx_strcat_empty_source.
Qed.

(** X9 (hx_strcat): when the characters of destination and source and one
    terminator fit into [destination_size], no strategy ends the process. *)
Theorem hx_strcat_no_exit_when_fits destination destination_size source strategy d s :
  c_string_of destination = Some d →
  c_string_of source = Some s →
  Z.of_nat (length d) + Z.of_nat (length s) + 1 ≤ destination_size →
  destination_size < 2 ^ 64 →
  exit_code (hx_strcat ENAMETOOLONG has_strlcat destination destination_size
               source strategy) = None.
Proof.
  intros Hd Hs Hfits Hrange.
  destruct (decide (s = [])) as [->|Hnonempty].
  - apply c_string_of_Some in Hs as [Hs _].
    now rewrite hx_strcat_empty_source.
  - rewrite (hx_strcat_passes _ _ _ _ d s) by (auto; lia).
    destruct (bool_decide _).
    + apply exit_code_bind; [apply exit_code_strncat|]. reflexivity.
    + destruct has_strlcat; [apply exit_code_strlcat|].
      apply exit_code_bind; [apply exit_code_strlen|]. intros dl.
      apply exit_code_bind; [apply exit_code_strcpy_at|]. reflexivity.
Qed.

(** X10 (hx_strcat): with SEQUENTIAL, a source with characters and room for
    both strings and a terminator, the call returns 0 (not a length) and the
    destination holds its own characters followed by those of the source. *)
Theorem hx_strcat_sequential_concatenates destination destination_size source d s :
  c_string_of destination = Some d →
  c_string_of source = Some s →
  s ≠ [] →
  Z.of_nat (length d) + Z.of_nat (length s) + 1 ≤ destination_size →
  destination_size ≤ Z.of_nat (length destination) →
  destination_size < 2 ^ 64 →
  ∃ destination',
    hx_strcat ENAMETOOLONG has_strlcat destination destination_size source SEQUENTIAL
    = Ok (0, destination')
    ∧ c_string_of destination' = Some (d ++ s)
    ∧ length destination' = length destination.
Proof.
  intros Hd Hs Hnonempty Hfits Hsize Hrange.
  rewrite (hx_strcat_passes _ _ _ _ d s) by (auto; lia).
  rewrite bool_decide_eq_true_2 by reflexivity.
  destruct (store_concatenation destination d s Hd (c_string_of_no_NUL _ _ Hs))
    as (destination' & Hstore & Hstring & Hlength); [lia|].
  exists destination'. split; [|auto].
  apply c_string_of_Some in Hd as [Hd _]. apply c_string_of_Some in Hs as [Hs Htake].
  unfold strncat. rewrite Hd, bind_Ok.
  rewrite (strnlen_of_strlen _ _ _ Hs) by lia.
  rewrite bind_Ok, Nat2Z.id, Htake, Hstore. reflexivity.
Qed.

(** X11 (hx_strcat): on a target with strlcat, with FILL or TRUNCATE, a
    source with characters and room for both strings and a terminator, the
    call returns the length of the concatenation and the destination holds
    its own characters followed by those of the source. *)
Theorem hx_strcat_strlcat_concatenates
    destination destination_size source strategy d s :
  has_strlcat = true →
  strategy ≠ SEQUENTIAL →
  c_string_of destination = Some d →
  c_string_of source = Some s →
  s ≠ [] →
  Z.of_nat (length d) + Z.of_nat (length s) + 1 ≤ destination_size →
  destination_size ≤ Z.of_nat (length destination) →
  destination_size < 2 ^ 64 →
  ∃ destination',
    hx_strcat ENAMETOOLONG has_strlcat destination destination_size source strategy
    = Ok (Z.of_nat (length d) + Z.of_nat (length s), destination')
    ∧ c_string_of destination' = Some (d ++ s)
    ∧ length destination' = length destination.
Proof.
  intros Hbranch Hstrategy Hd Hs Hnonempty Hfits Hsize Hrange.
  rewrite (hx_strcat_passes _ _ _ _ d s) by (auto; lia).
  rewrite bool_decide_eq_false_2, Hbranch by assumption.
  destruct (store_concatenation destination d s Hd (c_string_of_no_NUL _ _ Hs))
    as (destination' & Hstore & Hstring & Hlength); [lia|].
  exists destination'. split; [|auto].
  apply c_string_of_Some in Hd as [Hd _]. apply c_string_of_Some in Hs as [Hs Htake].
  unfold strlcat. rewrite (strnlen_of_strlen _ _ _ Hd) by lia.
  rewrite bind_Ok, Hs, bind_Ok.
  destruct (Z.eqb_spec (Z.of_nat (length d)) destination_size); [lia|].
  rewrite Z.min_l by lia. rewrite Nat2Z.id, Htake, Hstore, bind_Ok.
  now rewrite size_t_small by lia.
Qed.

(** X12 (hx_strcat): on a target with strlcat, TRUNCATE with a source that
    does not fit keeps as many of its characters as leave room for the
    terminator, and returns the length the whole concatenation would have. *)
Theorem hx_strcat_strlcat_truncates destination destination_size source d s :
  has_strlcat = true →
  c_string_of destination = Some d →
  c_string_of source = Some s →
  Z.of_nat (length d) < destination_size →
  destination_size < Z.of_nat (length d) + Z.of_nat (length s) + 1 →
  destination_size ≤ Z.of_nat (length destination) →
  Z.of_nat (length d) + Z.of_nat (length s) + 1 < 2 ^ 64 →
  ∃ destination',
    hx_strcat ENAMETOOLONG has_strlcat destination destination_size source TRUNCATE
    = Ok (Z.of_nat (length d) + Z.of_nat (length s), destination')
    ∧ c_string_of destination'
      = Some (d ++ take (Z.to_nat (destination_size - Z.of_nat (length d) - 1)) s)
    ∧ length destination' = length destination.
Proof.
  intros Hbranch Hd Hs Hroom Htoolong Hsize Hrange.
  assert (s ≠ []) as Hnonempty by (intros ->; simpl in *; lia).
  rewrite (hx_strcat_passes _ _ _ _ d s) by (auto; lia).
  rewrite bool_decide_eq_false_2, Hbranch by discriminate.
  set (room := destination_size - Z.of_nat (length d) - 1).
  destruct (store_concatenation destination d (take (Z.to_nat room) s) Hd)
    as (destination' & Hstore & Hstring & Hlength).
  { apply Forall_take, (c_string_of_no_NUL _ _ Hs). }
  { rewrite length_take. subst room. lia. }
  exists destination'. split; [|auto].
  apply c_string_of_Some in Hd as [Hd _]. apply c_string_of_Some in Hs as [Hs Htake].
  unfold strlcat. rewrite (strnlen_of_strlen _ _ _ Hd) by lia.
  rewrite bind_Ok, Hs, bind_Ok.
  destruct (Z.eqb_spec (Z.of_nat (length d)) destination_size); [lia|].
  fold room. rewrite Z.min_r by (subst room; lia).
  assert (take (Z.to_nat room) source = take (Z.to_nat room) s) as ->.
  { transitivity (take (Z.to_nat room) (take (length s) source)); [|now rewrite Htake].
    rewrite take_take. f_equal. subst room. lia. }
  rewrite Hstore, bind_Ok. now rewrite size_t_small by lia.
Qed.

(** X13 (hx_strcat): on a target without strlcat, FILL and TRUNCATE copy the
    source to the bytes AFTER the terminator of the destination: the call
    returns the two lengths plus one, and the string in the destination is
    the one that was there. *)
Theorem hx_strcat_without_strlcat_keeps_string
    destination destination_size source strategy d s :
  has_strlcat = false →
  strategy ≠ SEQUENTIAL →
  c_string_of destination = Some d →
  c_string_of source = Some s →
  s ≠ [] →
  strategy = TRUNCATE
  ∨ Z.of_nat (length d) + Z.of_nat (length s) + 1 ≤ destination_size →
  Z.of_nat (length d) + Z.of_nat (length s) + 2 ≤ Z.of_nat (length destination) →
  Z.of_nat (length destination) ≤ INT_MAX →
  ∃ destination',
    hx_strcat ENAMETOOLONG has_strlcat destination destination_size source strategy
    = Ok (Z.of_nat (length d) + Z.of_nat (length s) + 1, destination')
    ∧ c_string_of destination' = Some d
    ∧ length destination' = length destination.
Proof.
  intros Hbranch Hstrategy Hd Hs Hnonempty Hfits Hroom Hint.
  unfold INT_MAX in Hint.
  rewrite (hx_strcat_passes _ _ _ _ d s) by (auto; lia).
  rewrite bool_decide_eq_false_2, Hbranch by assumption.
  pose proof (c_string_of_no_NUL _ _ Hd) as Hdnonul.
  pose proof (c_string_of_no_NUL _ _ Hs) as Hsnonul.
  apply c_string_of_Some in Hd as [Hd Hdtake].
  apply c_string_of_Some in Hs as [Hs Hstake].
  rewrite Hd, bind_Ok. cbv zeta.
  assert (to_int (Z.of_nat (length d) + 1) = Z.of_nat (length d) + 1) as ->.
  { unfold to_int. rewrite Z.mod_small by lia. lia. }
  destruct (store_string destination s (Z.of_nat (length d) + 1))
    as (destination' & Hstore & Heq & Hlength); [lia | lia |].
  exists destination'. split; [|split; [|assumption]].
  - unfold strcpy_at. rewrite Hs, bind_Ok, Nat2Z.id, Hstake, Hstore, bind_Ok.
    now rewrite size_t_small by lia.
  - rewrite Heq. replace (Z.to_nat (Z.of_nat (length d) + 1)) with (S (length d)) by lia.
    apply strlen_Ok_iff in Hd as (_ & Hat & _). rewrite Nat2Z.id in Hat.
    rewrite (take_S_r _ _ _ Hat), Hdtake, <- app_assoc. simpl.
    now apply c_string_of_app_NUL.
Qed.

End HxStringFacts.

Lemma hx_strcat_empty_source_is_no_op_witness :
  hx_strcat 36 false (buffer_of "/tmp" 5) 5 (buffer_of "" 1) FILL
  = Ok (0, buffer_of "/tmp" 5).
Proof.
  apply (hx_strcat_empty_source_is_no_op 36 false (buffer_of "/tmp" 5) 5
           (buffer_of "" 1) FILL).
  reflexivity.
Defined.

Lemma hx_strcat_no_exit_when_fits_witness :
  exit_code (hx_strcat 36 false (buffer_of "/tmp" 16) 16 (buffer_of "/build" 7) FILL)
  = None.
Proof.
  apply (hx_strcat_no_exit_when_fits 36 false (buffer_of "/tmp" 16) 16
           (buffer_of "/build" 7) FILL
           (list_ascii_of_string "/tmp") (list_ascii_of_string "/build"));
    [reflexivity | reflexivity | simpl; lia | lia].
Defined.

Lemma hx_strcat_sequential_concatenates_witness :
  ∃ destination',
    hx_strcat 36 false (buffer_of "/tmp" 16) 16 (buffer_of "/build" 7) SEQUENTIAL
    = Ok (0, destination')
    ∧ c_string_of destination' = Some (list_ascii_of_string "/tmp/build")
    ∧ length destination' = 16%nat.
Proof.
  apply (hx_strcat_sequential_concatenates 36 false (buffer_of "/tmp" 16) 16
           (buffer_of "/build" 7)
           (list_ascii_of_string "/tmp") (list_ascii_of_string "/build"));
    [reflexivity | reflexivity | discriminate | simpl; lia | simpl; lia | lia].
Defined.

Lemma hx_strcat_strlcat_concatenates_witness :
  ∃ destination',
    hx_strcat 63 true (buffer_of "/tmp" 16) 16 (buffer_of "/build" 7) FILL
    = Ok (10, destination')
    ∧ c_string_of destination' = Some (list_ascii_of_string "/tmp/build")
    ∧ length destination' = 16%nat.
Proof.
  apply (hx_strcat_strlcat_concatenates 63 true (buffer_of "/tmp" 16) 16
           (buffer_of "/build" 7) FILL
           (list_ascii_of_string "/tmp") (list_ascii_of_string "/build"));
    [reflexivity | discriminate | reflexivity | reflexivity | discriminate
     | simpl; lia | simpl; lia | lia].
Defined.

Lemma hx_strcat_strlcat_truncates_witness :
  ∃ destination',
    hx_strcat 63 true (buffer_of "/tmp" 8) 8 (buffer_of "/build" 7) TRUNCATE
    = Ok (10, destination')
    ∧ c_string_of destination' = Some (list_ascii_of_string "/tmp/bu")
    ∧ length destination' = 8%nat.
Proof.
  apply (hx_strcat_strlcat_truncates 63 true (buffer_of "/tmp" 8) 8
           (buffer_of "/build" 7)
           (list_ascii_of_string "/tmp") (list_ascii_of_string "/build"));
    [reflexivity | reflexivity | reflexivity | simpl; lia | simpl; lia
     | simpl; lia | simpl; lia].
Defined.

Lemma hx_strcat_without_strlcat_keeps_string_witness :
  ∃ destination',
    hx_strcat 36 false (buffer_of "/tmp" 16) 16 (buffer_of "/build" 7) FILL
    = Ok (11, destination')
    ∧ c_string_of destination' = Some (list_ascii_of_string "/tmp")
    ∧ length destination' = 16%nat.
Proof.
  apply (hx_strcat_without_strlcat_keeps_string 36 false (buffer_of "/tmp" 16) 16
           (buffer_of "/build" 7) FILL
           (list_ascii_of_string "/tmp") (list_ascii_of_string "/build"));
    [reflexivity | discriminate | reflexivity | reflexivity | discriminate
     | right; simpl; lia | simpl; lia | unfold INT_MAX; simpl; lia].
Defined.


(** ** argparser.c, further: scanner, describe, dispatch *)

(** X15 (argparser_getopt): for every command line, option count and option
    table, the call has undefined behaviour: with options to go through it
    copies through the null [optstring] (or reads past the table), and with
    none it hands the freed array to getopt_long. *)
Theorem argparser_getopt_has_undefined_behaviour
    (argc : Z) (argv : list char_ptr) (option_count : Z) (options : list Option) :
  undefined (argparser_getopt argc argv option_count options).
Proof. apply argparser_getopt_never_returns. Qed.



(** X17 (execute_default): whatever the command line and the state of the
    process, the first iteration of the [while] loop ends in the strcpy of
    argparser_getopt through the null [optstring]: execute_default returns
    no status and prints nothing. *)
Theorem execute_default_has_undefined_behaviour
    (fuel : nat) (p : process) (argc : Z) (argv : list char_ptr) :
  execute_default (S fuel) p argc argv = Undefined NullPointer.
Proof. reflexivity. Qed.

(** Flags that are neither 'h' nor -1 are passed over one by one. *)
Lemma execute_default_with_skips (flags : list Z) :
  ∀ (scanner : nat → outcome Z) (fuel calls : nat) (p : process) (argv : list char_ptr),
    (∀ (i : nat) flag, flags !! i = Some flag →
       scanner (calls + i)%nat = Ok flag ∧ flag ≠ -1 ∧ flag ≠ 104) →
    execute_default_with scanner (length flags + fuel) calls p argv
    = execute_default_with scanner fuel (calls + length flags) p argv.
Proof.
  induction flags as [|flag flags IH]; intros scanner fuel calls p argv Hflags.
  - simpl. now rewrite Nat.add_0_r.
  - destruct (Hflags 0%nat flag eq_refl) as (Hscan & Hend & Hhelp).
    rewrite Nat.add_0_r in Hscan.
    change (length (flag :: flags) + fuel)%nat with (S (length flags + fuel)).
    rewrite (execute_default_with_other_flag _ _ _ _ _ flag) by assumption.
    rewrite IH.
    + f_equal. simpl. lia.
    + intros i flag' Hi. replace (S calls + i)%nat with (calls + S i)%nat by lia.
      now apply Hflags.
Qed.

(** X18 (execute_default, the loop over a scanner that returns): when the
    scanner gives flags none of which is 'h' and then -1, the loop returns
    NONE and leaves the process as it is, for any registered descriptions. *)
Theorem execute_default_with_no_help_flag
    (scanner : nat → outcome Z) (flags : list Z) (fuel : nat) (p : process)
    (argv : list char_ptr) :
  (∀ (i : nat) flag, flags !! i = Some flag →
     scanner i = Ok flag ∧ flag ≠ -1 ∧ flag ≠ 104) →
  scanner (length flags) = Ok (-1) →
  execute_default_with scanner (length flags + S fuel) 0 p argv = Ok (NONE, p).
Proof.
  intros Hflags Hend.
  rewrite execute_default_with_skips by exact Hflags.
  now apply execute_default_with_end.
Qed.

Lemma execute_default_with_no_help_flag_witness :
  execute_default_with (λ n, match n with O => Ok 63 | _ => Ok (-1) end) 2 0
    initial_process (argv_at 8192 ["demo"; "-x"])
  = Ok (NONE, initial_process).
Proof.
  apply (execute_default_with_no_help_flag
           (λ n, match n with O => Ok 63 | _ => Ok (-1) end) [63] 0
           initial_process (argv_at 8192 ["demo"; "-x"])).
  - intros [|i] flag H; simpl in H; [|discriminate H].
    injection H as <-. repeat split; discriminate.
  - reflexivity.
Defined.

(** X19 (execute_default, the loop over a scanner that returns): when the
    first 'h' comes, after any flags that are neither 'h' nor -1, and nothing
    has been described, the loop returns UNDESCRIBED and prints nothing. *)
Theorem execute_default_with_help_undescribed
    (scanner : nat → outcome Z) (flags : list Z) (fuel : nat) (p : process)
    (argv : list char_ptr) :
  (∀ (i : nat) flag, flags !! i = Some flag →
     scanner i = Ok flag ∧ flag ≠ -1 ∧ flag ≠ 104) →
  scanner (length flags) = Ok 104 →
  descriptions p = None →
  execute_default_with scanner (length flags + S fuel) 0 p argv = Ok (UNDESCRIBED, p).
Proof.
  intros Hflags Hhelp Hnone.
  rewrite execute_default_with_skips by exact Hflags.
  now apply execute_default_with_undescribed.
Qed.

Lemma execute_default_with_help_undescribed_witness :
  execute_default_with (λ n, match n with O => Ok 63 | _ => Ok 104 end) 2 0
    initial_process (argv_at 8192 ["demo"; "-x"; "--help"])
  = Ok (UNDESCRIBED, initial_process).
Proof.
  apply (execute_default_with_help_undescribed
           (λ n, match n with O => Ok 63 | _ => Ok 104 end) [63] 0
           initial_process (argv_at 8192 ["demo"; "-x"; "--help"])).
  - intros [|i] flag H; simpl in H; [|discriminate H].
    injection H as <-. repeat split; discriminate.
  - reflexivity.
  - reflexivity.
Defined.

(** X20 (execute_default, help): when the scanner gives 'h' and the store
    holds one description at its start, the loop compares the POINTERS
    argv[0] and [name]: if they are the same address it prints
    "OVERVIEW: <overview>\nUSAGE: <name>" and returns EXECUTED, otherwise it
    returns UNDESCRIBED and prints nothing, whatever the characters are. *)
Theorem execute_default_with_help_single_description
    (scanner : nat → outcome Z) (fuel : nat) (p : process) (argv : list char_ptr)
    (d : Description) (program_name overview_text name_text : c_string) :
  scanner 0%nat = Ok 104 →
  descriptions p = Some (single_description d) →
  argv !! 0%nat = Some (Some program_name) →
  overview d = Some overview_text →
  name d = Some name_text →
  execute_default_with scanner (S fuel) 0 p argv =
    if bool_decide (address program_name = address name_text)
    then Ok (EXECUTED,
             {| descriptions := descriptions p;
                stdout := stdout p +:+ "OVERVIEW: " +:+ chars overview_text +:+ newline
                          +:+ "USAGE: " +:+ chars name_text |})
    else Ok (UNDESCRIBED, p).
Proof.
  intros Hscan Hp Hargv Hoverview Hname.
  destruct (bool_decide (address program_name = address name_text)) eqn:Hsame.
  - rewrite (execute_default_with_match _ _ _ _ _ d (Some program_name)); auto.
    + unfold help. now rewrite Hoverview, Hname.
    + unfold ptr_eqb. rewrite Hname. simpl.
      apply bool_decide_eq_true in Hsame. apply bool_decide_eq_true. now f_equal.
  - apply (execute_default_with_no_match _ _ _ _ _ d (Some program_name)); auto.
    unfold ptr_eqb. rewrite Hname. simpl.
    apply bool_decide_eq_false in Hsame. apply bool_decide_eq_false.
    intros [= ?]. done.
Qed.

Lemma execute_default_with_help_single_description_witness :
  execute_default_with (λ _, Ok 104) 1 0
    {| descriptions := Some (single_description demo_description); stdout := "" |}
    (argv_at 8192 ["demo"; "--help"])
  = Ok (UNDESCRIBED,
        {| descriptions := Some (single_description demo_description); stdout := "" |}).
Proof.
  apply (execute_default_with_help_single_description (λ _, Ok 104) 0
           {| descriptions := Some (single_description demo_description);
              stdout := "" |}
           (argv_at 8192 ["demo"; "--help"]) demo_description
           {| address := 8192; chars := "demo" |} demo_overview demo_name);
    reflexivity.
Defined.





(** ** argparser.c, further: trim_start and first_index *)

(** X22 (trim_start): a string with a character that is no space loses its
    leading spaces and nothing else; a string of spaces only, like the empty
    string, is left as it is. *)
Theorem trim_start_removes_leading_spaces (text : string) :
  trim_start text =
    match trim_leading_spaces text with
    | EmptyString => text
    | trimmed => trimmed
    end.
Proof. apply trim_start_spec. Qed.

Lemma trim_leading_spaces_suffix (text : string) :
  ∃ n : nat, text = spaces n +:+ trim_leading_spaces text.
Proof.
  induction text as [|c text [n IH]]; [now exists 0%nat|]. simpl.
  destruct (Ascii.eqb_spec c " ") as [->|Hc].
  - exists (S n).
    change (spaces (S n) +:+ trim_leading_spaces text)
      with (String " " (spaces n +:+ trim_leading_spaces text)).
    now rewrite <- IH.
  - now exists 0%nat.
Qed.

Lemma trim_leading_spaces_started (c : ascii) (rest : string) :
  c ≠ " "%char → trim_leading_spaces (String c rest) = String c rest.
Proof. intros Hc. simpl. destruct (Ascii.eqb_spec c " "); [done|reflexivity]. Qed.

Lemma trim_leading_spaces_head (text : string) (c : ascii) (rest : string) :
  trim_leading_spaces text = String c rest → c ≠ " "%char.
Proof.
  induction text as [|a text IH]; simpl; [discriminate|].
  destruct (Ascii.eqb_spec a " ") as [->|Ha]; [assumption|].
  now intros [= <- _].
Qed.

Lemma string_length_append (s t : string) :
  String.length (s +:+ t) = (String.length s + String.length t)%nat.
Proof. induction s as [|c s IH]; [reflexivity|]. simpl. now rewrite IH. Qed.

(** X23 (trim_start): the result is the string without some number of
    spaces at its start, so it is never longer than the string: the
    memmove back into the argument stays inside it. *)
Theorem trim_start_suffix (text : string) :
  (∃ n : nat, text = spaces n +:+ trim_start text)
  ∧ (String.length (trim_start text) ≤ String.length text)%nat.
Proof.
  assert (∃ n : nat, text = spaces n +:+ trim_start text) as [n Hn].
  { rewrite trim_start_spec.
    destruct (trim_leading_spaces text) as [|c rest] eqn:Htrim.
    - now exists 0%nat.
    - rewrite <- Htrim. apply trim_leading_spaces_suffix. }
  split; [now exists n|].
  rewrite Hn at 2. rewrite string_length_append. lia.
Qed.

(** X24 (trim_start): trimming a trimmed string changes nothing, so a second
    pass over an argument vector that was trimmed in place sees the same
    arguments. *)
Theorem trim_start_idempotent (text : string) :
  trim_start (trim_start text) = trim_start text.
Proof.
  rewrite (trim_start_spec text).
  destruct (trim_leading_spaces text) as [|c rest] eqn:Htrim.
  - rewrite trim_start_spec. now rewrite Htrim.
  - rewrite trim_start_spec.
    now rewrite (trim_leading_spaces_started c rest
                   (trim_leading_spaces_head _ _ _ Htrim)).
Qed.



(** ** argparser.c, further: subcommand *)

(** X26 (subcommand): on a command line with [argc] entries, none of them
    null and none after argv[0] made of spaces only, subcommand returns the
    first argument that has characters left after its leading spaces, does
    not start with a dash and does not come right after an argument that
    does; and null when there is none. *)
Theorem subcommand_first_plain_argument (argv : list c_string) :
  argv ≠ [] →
  Forall (λ argument, ¬ blank (chars argument)) (tail argv) →
  text_of (subcommand (Z.of_nat (length argv)) (Some <$> argv))
  = Ok (subcommand_of_claim (chars <$> argv)).
Proof. apply subcommand_agrees_without_blank_arguments. Qed.

Lemma subcommand_first_plain_argument_witness :
  text_of (subcommand 5 (argv_at 8192 ["prog"; "  -v"; "1"; ""; " build"]))
  = Ok (Some "build").
Proof.
  apply (subcommand_first_plain_argument
           [ {| address := 8192; chars := "prog" |};
             {| address := 8197; chars := "  -v" |};
             {| address := 8202; chars := "1" |};
             {| address := 8204; chars := "" |};
             {| address := 8205; chars := " build" |} ]).
  - discriminate.
  - repeat constructor; intros [Hsome Htrim]; solve [discriminate Htrim | now apply Hsome].
Defined.

Lemma subcommand_loop_sound (argv : list char_ptr) (result : c_string) :
  ∀ (remaining : nat) (index last_option_index : Z),
    1 ≤ index →
    (∀ previous, argv !! Z.to_nat (index - 1) = Some previous → 2 ≤ index →
       is_option_argument previous = true → last_option_index = index - 1) →
    subcommand_loop remaining argv index last_option_index = Ok (Some result) →
    ∃ (position : Z) (argument : c_string),
      index ≤ position < index + Z.of_nat remaining
      ∧ argv !! Z.to_nat position = Some (Some argument)
      ∧ result = {| address := address argument;
                    chars := trim_start (chars argument) |}
      ∧ chars result ≠ EmptyString
      ∧ first_index (chars result) "-" ≠ 0
      ∧ (∀ previous, argv !! Z.to_nat (position - 1) = Some previous →
           2 ≤ position → is_option_argument previous = false).
Proof.
  induction remaining as [|remaining IH]; intros index last Hindex Hlast; [discriminate|].
  cbn [subcommand_loop].
  assert (∀ last',
    (∀ entry, argv !! Z.to_nat index = Some entry →
       is_option_argument entry = true → last' = index) →
    subcommand_loop remaining argv (index + 1) last' = Ok (Some result) →
    ∃ (position : Z) (argument : c_string),
      index ≤ position < index + Z.of_nat (S remaining)
      ∧ argv !! Z.to_nat position = Some (Some argument)
      ∧ result = {| address := address argument;
                    chars := trim_start (chars argument) |}
      ∧ chars result ≠ EmptyString
      ∧ first_index (chars result) "-" ≠ 0
      ∧ (∀ previous, argv !! Z.to_nat (position - 1) = Some previous →
           2 ≤ position → is_option_argument previous = false)) as Hnext.
  { intros last' Hlast' Hloop.
    destruct (IH (index + 1) last') as (position & argument & Hrange & Hrest);
      [lia | | assumption |].
    - intros previous Hprevious _ Hoption.
      replace (index + 1 - 1) with index in * by lia.
      rewrite (Hlast' previous Hprevious Hoption). reflexivity.
    - exists position, argument. split; [lia | exact Hrest]. }
  destruct (argv !! Z.to_nat index) as [[argument|]|] eqn:Hentry; [| |discriminate].
  - cbn [chars address].
    destruct (Z.of_nat (String.length (trim_start (chars argument))) =? 0) eqn:Hempty.
    { apply Hnext. intros entry [= <-]. simpl. now rewrite Hempty. }
    destruct (first_index (trim_start (chars argument)) "-" =? 0) eqn:Hdash.
    { apply Hnext. auto. }
    destruct ((0 <=? last) && (index =? last + 1)) eqn:Hconsumed.
    { apply Hnext. intros entry [= <-]. simpl. now rewrite Hempty, Hdash. }
    intros [= <-]. exists index, argument.
    split; [lia|]. split; [assumption|]. split; [reflexivity|]. cbn [chars].
    split; [intros Hnil; rewrite Hnil in Hempty; discriminate|].
    split; [now apply Z.eqb_neq|].
    intros previous Hprevious Htwo.
    destruct (is_option_argument previous) eqn:Hoption; [|reflexivity].
    specialize (Hlast previous Hprevious Htwo Hoption). subst last.
    destruct (Z.leb_spec 0 (index - 1)); [|lia].
    destruct (Z.eqb_spec index (index - 1 + 1)); [discriminate|lia].
  - apply Hnext. intros entry [= <-]. discriminate.
Qed.

(** X27 (subcommand): whatever the command line (null entries and arguments
    of spaces included), a subcommand that is returned is one of
    argv[1] ... argv[argc - 1] after trim_start, at the address of that
    argument; it has characters, its first one is no dash, and the entry
    before it (when it is not argv[0]) is no option. *)
Theorem subcommand_sound (argc : Z) (argv : list char_ptr) (result : c_string) :
  subcommand argc argv = Ok (Some result) →
  ∃ (position : Z) (argument : c_string),
    1 ≤ position < argc
    ∧ argv !! Z.to_nat position = Some (Some argument)
    ∧ result = {| address := address argument;
                  chars := trim_start (chars argument) |}
    ∧ chars result ≠ EmptyString
    ∧ first_index (chars result) "-" ≠ 0
    ∧ (∀ previous, argv !! Z.to_nat (position - 1) = Some previous →
         2 ≤ position → is_option_argument previous = false).
Proof.
  unfold subcommand. destruct (argc =? 1); [discriminate|]. intros Hloop.
  apply subcommand_loop_sound in Hloop as (position & argument & Hrange & Hrest);
    [| lia | intros; lia].
  exists position, argument. split; [lia | exact Hrest].
Qed.

Lemma subcommand_sound_witness :
  ∃ (position : Z) (argument : c_string),
    1 ≤ position < 4
    ∧ [None; Some {| address := 8197; chars := "-x" |};
       Some {| address := 8200; chars := "   " |};
       Some {| address := 8204; chars := " run" |}] !! Z.to_nat position
      = Some (Some argument)
    ∧ {| address := 8204; chars := "run" |}
      = {| address := address argument; chars := trim_start (chars argument) |}
    ∧ chars {| address := 8204; chars := "run" |} ≠ EmptyString
    ∧ first_index (chars {| address := 8204; chars := "run" |}) "-" ≠ 0
    ∧ (∀ previous,
         [None; Some {| address := 8197; chars := "-x" |};
          Some {| address := 8200; chars := "   " |};
          Some {| address := 8204; chars := " run" |}] !! Z.to_nat (position - 1)
         = Some previous →
         2 ≤ position → is_option_argument previous = false).
Proof.
  apply (subcommand_sound 4
           [None; Some {| address := 8197; chars := "-x" |};
            Some {| address := 8200; chars := "   " |};
            Some {| address := 8204; chars := " run" |}]
           {| address := 8204; chars := "run" |}).
  reflexivity.
Defined.

Lemma subcommand_loop_in_bounds (argv : list char_ptr) :
  ∀ (remaining : nat) (index last_option_index : Z),
    0 ≤ index →
    index + Z.of_nat remaining ≤ Z.of_nat (length argv) →
    ∃ result, subcommand_loop remaining argv index last_option_index = Ok result.
Proof.
  induction remaining as [|remaining IH]; intros index last Hindex Hbound;
    [now eexists|].
  cbn [subcommand_loop].
  destruct (argv !! Z.to_nat index) as [entry|] eqn:Hentry;
    [|apply lookup_ge_None_1 in Hentry; unfold char_ptr in *; exfalso; lia].
  destruct entry as [argument|]; [|apply IH; lia].
  destruct (_ =? 0); [apply IH; lia|].
  destruct (_ =? 0); [apply IH; lia|].
  destruct (_ && _); [apply IH; lia|]. now eexists.
Qed.

(** X28 (subcommand): when argv has at least [argc] entries, the call
    returns, a subcommand or null: it reads no entry outside argv, and a
    null entry or an [argc] of 0 or less is no error. *)
Theorem subcommand_in_bounds (argc : Z) (argv : list char_ptr) :
  argc ≤ Z.of_nat (length argv) →
  ∃ result, subcommand argc argv = Ok result.
Proof.
  intros Hargc. unfold subcommand. destruct (argc =? 1); [now eexists|].
  destruct (Z.le_gt_cases argc 1).
  - replace (Z.to_nat (argc - 1)) with 0%nat by lia. now eexists.
  - apply subcommand_loop_in_bounds; lia.
Qed.

Lemma subcommand_in_bounds_witness :
  ∃ result,
    subcommand 3 [Some {| address := 8192; chars := "prog" |}; None;
                  Some {| address := 8197; chars := "-h" |}] = Ok result.
Proof.
  apply (subcommand_in_bounds 3
           [Some {| address := 8192; chars := "prog" |}; None;
            Some {| address := 8197; chars := "-h" |}]).
  simpl. lia.
Defined.

(** ** lexer.c *)

Lemma nat_of_ascii_bound (character : ascii) :
  0 ≤ Z.of_nat (nat_of_ascii character) ≤ 255.
Proof. pose proof (nat_ascii_bounded character). lia. Qed.

Lemma isalnum_ascii (character : ascii) :
  is_ascii character = true →
  isalnum (char_to_int character) = Ok (is_ascii_alnum character).
Proof.
  unfold is_ascii, isalnum, ctype, char_to_int, is_ascii_alnum, EOF.
  pose proof (nat_of_ascii_bound character) as Hbound.
  set (code := Z.of_nat (nat_of_ascii character)) in *.
  intros Hascii. rewrite Hascii.
  destruct (Z.eqb_spec code (-1)); [lia|].
  destruct (Z.leb_spec 0 code); [|lia].
  destruct (Z.leb_spec code 255); [|lia]. reflexivity.
Qed.

Lemma isalpha_ascii (character : ascii) :
  is_ascii character = true →
  ∃ alphabetic, isalpha (char_to_int character) = Ok alphabetic
                ∧ (alphabetic = true → is_ascii_alnum character = true).
Proof.
  unfold is_ascii, isalpha, ctype, char_to_int, is_ascii_alnum, EOF.
  pose proof (nat_of_ascii_bound character) as Hbound.
  set (code := Z.of_nat (nat_of_ascii character)) in *.
  intros Hascii. rewrite Hascii.
  destruct (Z.eqb_spec code (-1)); [lia|].
  destruct (Z.leb_spec 0 code); [|lia].
  destruct (Z.leb_spec code 255); [|lia].
  eexists. split; [reflexivity|]. simpl. intros ->. reflexivity.
Qed.

Lemma is_id_loop_ascii (characters : string) :
  ∀ index,
    0 ≤ index →
    index + Z.of_nat (String.length characters) ≤ INT_MAX →
    forallb is_ascii (list_ascii_of_string characters) = true →
    is_id_loop characters index
    = Ok (forallb is_ascii_alnum (list_ascii_of_string characters)).
Proof.
  induction characters as [|character rest IH]; intros index Hindex Hlength Hascii;
    [reflexivity|].
  cbn [is_id_loop list_ascii_of_string forallb String.length] in *.
  apply andb_prop in Hascii as [Hcharacter Hrest].
  rewrite (isalnum_ascii _ Hcharacter).
  destruct (isalpha_ascii _ Hcharacter) as (alphabetic & -> & Halnum).
  assert ((if index =? 0
           then Ok alphabetic ≫= λ alphabetic : bool,
                  if alphabetic then Ok true else Ok (is_ascii_alnum character)
           else Ok (is_ascii_alnum character))
          = Ok (is_ascii_alnum character)) as ->.
  { destruct (index =? 0); [|reflexivity]. rewrite bind_Ok.
    destruct alphabetic; [|reflexivity]. now rewrite Halnum. }
  rewrite bind_Ok. destruct (is_ascii_alnum character); [|reflexivity].
  rewrite int_in_range by (unfold INT_MIN, INT_MAX in *; lia).
  rewrite bind_Ok. simpl. apply IH; [lia | lia | assumption].
Qed.

(** X29 (init_token, is_id): for a token initialized with a text of ASCII
    characters (at most INT_MAX of them), is_id returns true exactly when
    every character is a letter or a digit.  The position plays no part: the
    empty text and a text that starts with a digit are accepted. *)
Theorem is_id_of_ascii_text (token : Token) (column row : Z) (text : c_string) :
  forallb is_ascii (list_ascii_of_string (chars text)) = true →
  Z.of_nat (String.length (chars text)) ≤ INT_MAX →
  is_id (init_token (Some token) column row (Some text))
  = Ok (forallb is_ascii_alnum (list_ascii_of_string (chars text))).
Proof.
  intros Hascii Hlength. simpl. apply is_id_loop_ascii; [lia | lia | assumption].
Qed.

Lemma is_id_of_ascii_text_witness :
  is_id (init_token (Some {| column := 7; row := 7; text := None |}) 0 0
           (Some {| address := 4096; chars := "2ID" |}))
  = Ok true.
Proof.
  apply (is_id_of_ascii_text {| column := 7; row := 7; text := None |} 0 0
           {| address := 4096; chars := "2ID" |});
    [reflexivity | vm_compute; discriminate].
Defined.

(** What the tests of the lexer ask of the same texts. *)
Example is_id_examples :
  is_id_loop "Helena" 0 = Ok true
  ∧ is_id_loop "h06" 0 = Ok true
  ∧ is_id_loop "1" 0 = Ok true
  ∧ is_id_loop "" 0 = Ok true
  ∧ is_id_loop "a_b" 0 = Ok false.
Proof. repeat split. Qed.
